(** * sbpl_geometry_utils: joint-space interpolation and path shortcutting

  A shallow embedding of
    - [src/src/interpolation.cpp]  (namespace [sbpl::interp]), and
    - the [ShortcutPath] template of [sbpl::shortcut],
  together with the properties of these two algorithms.

  Conventions of the embedding.
    - A C++ [double] is a binary64 primitive float; [+ - * /], [fabs] and
      the comparisons are the IEEE operations of [PrimFloat].
    - A [std::vector<T>] is a [list T]; [v[i]] is the total lookup [v !!! i]
      and [v[i] = x] the list update [<[i:=x]> v].  Every index the code
      uses is below the size of its vector (the sizes are compared before
      the loops run), where both agree with C++.
    - An [int] or [unsigned] is a [Z] or a [nat]; the sizes and counters of
      the code stay far below 2^31, so no wrap-around is written out.
    - A [bool] function with an output parameter returns the pair of its
      result and the final value of that parameter. *)

From Stdlib Require Import ZArith Floats Uint63.
From stdpp Require Import base list.

Local Open Scope Z_scope.

(** ** Doubles *)

Module Double.

#[global] Instance float_inhabited : Inhabited float := populate 0%float.

(** [M_PI] of <cmath>: the binary64 number nearest to pi. *)
Definition M_PI : float := 0x1.921fb54442d18p+1%float.

(** [2 * M_PI], "a full turn". *)
Definition TWO_PI : float := (2 * M_PI)%float.

(** [fabs]. *)
Definition fabs (x : float) : float := PrimFloat.abs x.

(** [a > b] on doubles ([false] as soon as one side is NaN). *)
Definition gtb (a b : float) : bool := PrimFloat.ltb b a.

(** Conversion of an [int] to [double], as in [travel_dirs[i] * inc[i]]. *)
Definition of_int (z : Z) : float :=
  match z with
  | Z0 => 0%float
  | Zpos _ => PrimFloat.of_uint63 (Uint63.of_Z z)
  | Zneg p => PrimFloat.opp (PrimFloat.of_uint63 (Uint63.of_Z (Zpos p)))
  end.

(** The integer [m * 2^e] rounded towards plus or minus infinity. *)
Definition scaled_floor (m e : Z) : Z :=
  if 0 <=? e then m * 2 ^ e else m / 2 ^ (- e).

Definition scaled_ceil (m e : Z) : Z := - scaled_floor (- m) e.

(** Mathematical floor and ceiling of a finite double; [None] on an
    infinity or a NaN. *)
Definition floorZ (x : float) : option Z :=
  match Prim2SF x with
  | S754_zero _ => Some 0
  | S754_finite s m e => Some (scaled_floor (if s then Zneg m else Zpos m) e)
  | _ => None
  end.

Definition ceilZ (x : float) : option Z :=
  match Prim2SF x with
  | S754_zero _ => Some 0
  | S754_finite s m e => Some (scaled_ceil (if s then Zneg m else Zpos m) e)
  | _ => None
  end.

Definition INT_MIN : Z := - 2 ^ 31.
Definition INT_MAX : Z := 2 ^ 31 - 1.

(** [(int)ceil(x)].  The conversion is undefined in C++ when the ceiling
    does not fit an [int] (or [x] is not finite); this instance returns what
    x86-64's conversion instruction returns then, [INT_MIN].  No theorem
    below depends on that choice: the algorithm is stated over an arbitrary
    function [ceil_int]. *)
Definition ceil_to_int (x : float) : Z :=
  match ceilZ x with
  | Some z => if (INT_MIN <=? z) && (z <=? INT_MAX) then z else INT_MIN
  | None => INT_MIN
  end.

(** [floor(x)] as a double: a double of magnitude 2^53 or more is an
    integer already. *)
Definition floor (x : float) : float :=
  match Prim2SF x with
  | S754_finite s m e =>
      let z := scaled_floor (if s then Zneg m else Zpos m) e in
      if (- 2 ^ 53 <? z) && (z <? 2 ^ 53) then of_int z else x
  | _ => x
  end.

End Double.

Import Double.

(** ** Interpolation: [src/src/interpolation.cpp] *)

Module Interp.

Section WithAngleUtils.

(** The scalar helpers of [sbpl::utils] are declared in [utils.h] and
    defined elsewhere in the library; [ceil] is libm's.  The algorithm is
    embedded over arbitrary such functions. *)
Variable NormalizeAngle : float -> float -> float -> float.
Variable ShortestAngleDiff : float -> float -> float.
Variable Sign : float -> Z.
(** [ceil_int x] is [(int)ceil(x)]. *)
Variable ceil_int : float -> Z.

Implicit Types (angles start min_limits max_limits inc : list float).
Implicit Types (start_norm end_norm curr_cfg : list float).
Implicit Types (continuous_joints : list bool) (travel_dirs : list Z).
Implicit Types (path : list (list float)) (eps : float).

(** *** [NormalizeAnglesIntoRange] *)

(** The first loop, from index [i] over [n] more indices: [false] as soon
    as some [min_limits[i] > max_limits[i]]. *)
Fixpoint limits_ordered_from (n i : nat) min_limits max_limits : bool :=
  match n with
  | O => true
  | S n' =>
      if gtb (min_limits !!! i) (max_limits !!! i) then false
      else limits_ordered_from n' (S i) min_limits max_limits
  end.

(** The second loop: normalizes [angles[i]] in place and stops at the first
    one that is outside its limits afterwards. *)
Fixpoint normalize_from (n i : nat) angles min_limits max_limits
  : bool * list float :=
  match n with
  | O => (true, angles)
  | S n' =>
      let min_angle_norm := NormalizeAngle (min_limits !!! i) 0%float TWO_PI in
      let angles :=
        <[i := NormalizeAngle (angles !!! i) (min_limits !!! i) min_angle_norm]>
          angles in
      if PrimFloat.ltb (angles !!! i) (min_limits !!! i)
         || gtb (angles !!! i) (max_limits !!! i)
      then (false, angles)
      else normalize_from n' (S i) angles min_limits max_limits
  end.

(** The result and the final value of [angles]. *)
Definition NormalizeAnglesIntoRange angles min_limits max_limits
  : bool * list float :=
  let dim := length angles in
  if negb (length min_limits =? dim)%nat || negb (length max_limits =? dim)%nat
  then (false, angles)
  else if negb (limits_ordered_from dim 0 min_limits max_limits)
  then (false, angles)
  else normalize_from dim 0 angles min_limits max_limits.

(** *** [InterpolatePath]: the travel directions (lines 101-115) *)

(** [start_norm[i] + angle_diff > max_limits[i] ||
     start_norm[i] + angle_diff < min_limits[i]]: the short arc leaves the
    limits of joint [i]. *)
Definition short_arc_leaves_limits start_norm min_limits max_limits
    (angle_diff : float) (i : nat) : bool :=
  gtb (start_norm !!! i + angle_diff)%float (max_limits !!! i)
  || PrimFloat.ltb (start_norm !!! i + angle_diff)%float (min_limits !!! i).

Definition travel_dir start_norm end_norm min_limits max_limits
    continuous_joints (i : nat) : Z :=
  let angle_diff := ShortestAngleDiff (end_norm !!! i) (start_norm !!! i) in
  if continuous_joints !!! i : bool then Sign angle_diff
  else if short_arc_leaves_limits start_norm min_limits max_limits angle_diff i
       then - Sign angle_diff
       else Sign angle_diff.

Fixpoint travel_dirs_from (n i : nat) start_norm end_norm min_limits max_limits
    continuous_joints travel_dirs : list Z :=
  match n with
  | O => travel_dirs
  | S n' =>
      travel_dirs_from n' (S i) start_norm end_norm min_limits max_limits
        continuous_joints
        (<[i := travel_dir start_norm end_norm min_limits max_limits
                  continuous_joints i]> travel_dirs)
  end.

(** [std::vector<int> travel_dirs(dim, 0)] and the loop that fills it. *)
Definition compute_travel_dirs (dim : nat) start_norm end_norm min_limits
    max_limits continuous_joints : list Z :=
  travel_dirs_from dim 0 start_norm end_norm min_limits max_limits
    continuous_joints (replicate dim 0).

(** *** [InterpolatePath]: the number of iterations (lines 117-141) *)

Definition angle_dist start_norm end_norm min_limits max_limits (i : nat)
  : float :=
  let angle_diff := ShortestAngleDiff (end_norm !!! i) (start_norm !!! i) in
  if short_arc_leaves_limits start_norm min_limits max_limits angle_diff i
  then (2 * M_PI - fabs angle_diff)%float
  else fabs angle_diff.

Definition max_iters_for_angle start_norm end_norm min_limits max_limits inc
    eps (i : nat) : Z :=
  if PrimFloat.ltb (fabs (end_norm !!! i - start_norm !!! i)%float) eps then 1
  else if PrimFloat.leb (fabs (end_norm !!! i - start_norm !!! i)%float)
                        (inc !!! i)
  then 1
  else ceil_int (angle_dist start_norm end_norm min_limits max_limits i
                 / inc !!! i)%float.

Fixpoint max_iterations_from (n i : nat) start_norm end_norm min_limits
    max_limits inc eps (max_iterations : Z) : Z :=
  match n with
  | O => max_iterations
  | S n' =>
      max_iterations_from n' (S i) start_norm end_norm min_limits max_limits
        inc eps
        (Z.max max_iterations
           (max_iters_for_angle start_norm end_norm min_limits max_limits inc
              eps i))
  end.

(** [int max_iterations = 0] and the loop over the joints. *)
Definition compute_max_iterations (dim : nat) start_norm end_norm min_limits
    max_limits inc eps : Z :=
  max_iterations_from dim 0 start_norm end_norm min_limits max_limits inc eps 0.

(** *** [InterpolatePath]: the stepping loops (lines 143-171) *)

(** One pass of the inner loop body for joint [i]. *)
Definition step_joint end_norm min_limits max_limits inc travel_dirs
    (i : nat) curr_cfg : list float :=
  let anglediff := ShortestAngleDiff (curr_cfg !!! i) (end_norm !!! i) in
  let curr_cfg :=
    if PrimFloat.ltb (fabs anglediff) (inc !!! i)
    then <[i := (curr_cfg !!! i + anglediff)%float]> curr_cfg
    else <[i := (curr_cfg !!! i + of_int (travel_dirs !!! i) * inc !!! i)%float]>
           curr_cfg in
  let curr_cfg :=
    if gtb (curr_cfg !!! i) (max_limits !!! i)
    then <[i := (curr_cfg !!! i - 2 * M_PI)%float]> curr_cfg
    else curr_cfg in
  if PrimFloat.ltb (curr_cfg !!! i) (min_limits !!! i)
  then <[i := (curr_cfg !!! i + 2 * M_PI)%float]> curr_cfg
  else curr_cfg.

Fixpoint step_joints_from (n i : nat) end_norm min_limits max_limits inc
    travel_dirs curr_cfg : list float :=
  match n with
  | O => curr_cfg
  | S n' =>
      step_joints_from n' (S i) end_norm min_limits max_limits inc travel_dirs
        (step_joint end_norm min_limits max_limits inc travel_dirs i curr_cfg)
  end.

(** The outer loop, [c] more iterations: each one inches every joint and
    pushes the configuration onto [path]. *)
Fixpoint interpolate_loop (c dim : nat) end_norm min_limits max_limits inc
    travel_dirs curr_cfg path : list (list float) :=
  match c with
  | O => path
  | S c' =>
      let curr_cfg :=
        step_joints_from dim 0 end_norm min_limits max_limits inc travel_dirs
          curr_cfg in
      interpolate_loop c' dim end_norm min_limits max_limits inc travel_dirs
        curr_cfg (path ++ [curr_cfg])
  end.

(** The size check of lines 86-87. *)
Definition same_dimension start (end_ : list float) min_limits max_limits inc
    continuous_joints : bool :=
  let dim := length start in
  (dim =? length end_)%nat && (dim =? length inc)%nat
  && (dim =? length min_limits)%nat && (dim =? length max_limits)%nat
  && (dim =? length continuous_joints)%nat.

(** The result and the final value of the output parameter [path]. *)
Definition InterpolatePath start (end_ : list float) min_limits max_limits inc
    continuous_joints eps path : bool * list (list float) :=
  let path : list (list float) := [] in
  let dim := length start in
  if negb (same_dimension start end_ min_limits max_limits inc continuous_joints)
  then (false, path)
  else
    match NormalizeAnglesIntoRange start min_limits max_limits with
    | (false, _) => (false, path)
    | (true, start_norm) =>
        match NormalizeAnglesIntoRange end_ min_limits max_limits with
        | (false, _) => (false, path)
        | (true, end_norm) =>
            let travel_dirs :=
              compute_travel_dirs dim start_norm end_norm min_limits
                max_limits continuous_joints in
            let max_iterations :=
              compute_max_iterations dim start_norm end_norm min_limits
                max_limits inc eps in
            let curr_cfg := start_norm in
            let path := path ++ [curr_cfg] in
            (true,
             interpolate_loop (Z.to_nat max_iterations) dim end_norm
               min_limits max_limits inc travel_dirs curr_cfg path)
        end
    end.

End WithAngleUtils.

End Interp.

(** ** The scalar helpers, from their contracts *)

Module AngleModel.

(** Modelled from the spec: [NormalizeAngle] is declared in [utils.h] and
    defined elsewhere in the library.  "Shifts angle by integer multiples
    of (max - min) into [min,max)"; the header: "Normalize an angle into the
    range [angle_min, angle_max].  Assumes that the difference between
    angle_max and angle_min is 2*pi".  Outside that assumption (a range that
    is empty or inverted) the contract says nothing and the angle comes back
    as it is. *)
Definition NormalizeAngle (angle_rad angle_min_rad angle_max_rad : float)
  : float :=
  let width := (angle_max_rad - angle_min_rad)%float in
  if PrimFloat.ltb 0%float width
  then (angle_rad - floor ((angle_rad - angle_min_rad) / width) * width)%float
  else angle_rad.

(** Modelled from the spec: [ShortestAngleDiff] is declared in [utils.h] and
    defined elsewhere in the library.  "Signed difference in [-pi,pi]
    representing rotation from b to a along the minor arc; positive =
    counter-clockwise"; the header: "positive if to follow along the
    shortest angular path from a2 to a1, you have to move
    counter-clockwise". *)
Definition ShortestAngleDiff (a1_rad a2_rad : float) : float :=
  NormalizeAngle (a1_rad - a2_rad)%float (- M_PI)%float M_PI.

(** Modelled from the spec: [Sign] is declared in [utils.h] and defined
    elsewhere in the library.  "Sign(x): -1, 0, or 1". *)
Definition Sign (val : float) : Z :=
  if PrimFloat.ltb 0%float val then 1
  else if PrimFloat.ltb val 0%float then -1
  else 0.

(** The opposite reading of the sign, "rotation from a1 to a2", kept to
    show what does not depend on the reading. *)
Definition ShortestAngleDiff_reversed (a1_rad a2_rad : float) : float :=
  ShortestAngleDiff a2_rad a1_rad.

(** [InterpolatePath] over these helpers and the IEEE ceiling. *)
Definition InterpolatePath :=
  Interp.InterpolatePath NormalizeAngle ShortestAngleDiff Sign ceil_to_int.

Definition NormalizeAnglesIntoRange :=
  Interp.NormalizeAnglesIntoRange NormalizeAngle.

(** Modelled from the spec: [AreJointsWithinLimits] is declared in [utils.h]
    and defined elsewhere in the library.  "Pure containment check, no
    mutation"; the header: "true if all joints are within their [min, max]
    limits; false otherwise".  For vectors of one length. *)
Fixpoint AreJointsWithinLimits (angles min_limits max_limits : list float)
  : bool :=
  match angles, min_limits, max_limits with
  | a :: angles', lo :: min_limits', hi :: max_limits' =>
      PrimFloat.leb lo a && PrimFloat.leb a hi
      && AreJointsWithinLimits angles' min_limits' max_limits'
  | _, _, _ => true
  end.

(** The default [eps] of the overloads without one, [1e-6]. *)
Definition default_eps : float := 0x1.0c6f7a0b5ed8dp-20%float.

End AngleModel.

(** ** Shortcutting: the [ShortcutPath] template of [sbpl::shortcut] *)

Module Shortcut.

Section WithTypes.

(** [PathContainer::value_type] and [CostsContainer::value_type], with the
    cost operations the template uses: the constant [0.0], [+] and [-]. *)
Context {PointType CostType : Type} `{!Inhabited PointType}.
Variable cost_zero : CostType.
Variables cost_add cost_sub : CostType -> CostType -> CostType.

#[local] Instance cost_inhabited : Inhabited CostType := populate cost_zero.

(** [generate_path(a, b, path, cost)]: [None] when it returns [false],
    otherwise the sub-path and the cost it wrote. *)
Record PathGeneratorType : Type :=
  { generate_path : PointType -> PointType -> option (list PointType * CostType) }.

Variable orig_path : list PointType.
Variable orig_path_costs : list CostType.
Variable path_generators : list PathGeneratorType.
Variable granularity : nat.
(** [leq(candidate, reference)], the caller's acceptance test. *)
Variable leq : CostType -> CostType -> bool.

(** Lines 100-105: the accumulated original cost per point. *)
Fixpoint accumulate_from (n i : nat) (accum : list CostType) : list CostType :=
  match n with
  | O => accum
  | S n' =>
      accumulate_from n' (S i)
        (<[i := cost_add (accum !!! (i - 1)%nat) (orig_path_costs !!! (i - 1)%nat)]>
           accum)
  end.

Definition accum_point_costs : list CostType :=
  accumulate_from (length orig_path - 1) 1
    (<[0%nat := cost_zero]> (replicate (length orig_path) cost_zero)).

(** The variables of the search.  An iterator into [orig_path] is the
    position it points at; [orig_path.end()] is [length orig_path]. *)
Record state : Type := State
  { curr_start : nat;
    last_end : nat;
    curr_end : nat;
    start_index : nat;
    end_index : nat;
    best_path : list PointType;
    best_cost : CostType;
    result_traj : list PointType }.

(** Lines 131-142: every generator proposes a path from [a] to [b]; a
    proposal that [leq] accepts becomes the best path. *)
Fixpoint try_generators (gens : list PathGeneratorType) (a b : PointType)
    (e : nat) (cost_improved : bool) (bpath : list PointType)
    (bcost : CostType) : bool * list PointType * CostType :=
  match gens with
  | [] => (cost_improved, bpath, bcost)
  | it :: gens' =>
      match generate_path it a b with
      | Some (path, cost) =>
          if leq cost
               (cost_sub (cost_add bcost (accum_point_costs !!! e))
                  (accum_point_costs !!! (e - 1)%nat))
          then try_generators gens' a b e true path cost
          else try_generators gens' a b e cost_improved bpath bcost
      | None => try_generators gens' a b e cost_improved bpath bcost
      end
  end.

(** [if (!result_traj.empty()) result_traj.pop_back();] followed by the
    insertion of [bpath] at the end. *)
Definition commit (traj bpath : list PointType) : list PointType :=
  match traj with
  | [] => bpath
  | _ :: _ => removelast traj ++ bpath
  end.

(** Lines 127-178: one iteration of the [while] loop. *)
Definition loop_body (st : state) : state :=
  let '(cost_improved, bpath, bcost) :=
    try_generators path_generators (orig_path !!! curr_start st)
      (orig_path !!! curr_end st) (end_index st) false (best_path st)
      (best_cost st) in
  if cost_improved then
    let dist_to_end := (length orig_path - curr_end st)%nat in
    if (dist_to_end =? 1)%nat then
      State (curr_start st) (length orig_path - 1)%nat (length orig_path)
        (start_index st) (length orig_path) bpath bcost (result_traj st)
    else if (dist_to_end <? granularity)%nat then
      State (curr_start st) (last_end st + (dist_to_end - 1))%nat
        (curr_end st + (dist_to_end - 1))%nat (start_index st)
        (end_index st + (dist_to_end - 1))%nat bpath bcost (result_traj st)
    else
      State (curr_start st) (last_end st + granularity)%nat
        (curr_end st + granularity)%nat (start_index st)
        (end_index st + granularity)%nat bpath bcost (result_traj st)
  else
    let traj := commit (result_traj st) bpath in
    let cstart := last_end st in
    let sindex := (end_index st - 1)%nat in
    State cstart (last_end st) (curr_end st) sindex (end_index st)
      [orig_path !!! cstart; orig_path !!! curr_end st]
      (cost_sub (accum_point_costs !!! end_index st)
         (accum_point_costs !!! sindex))
      traj.

(** [while (curr_end != orig_path.end())], at most [fuel] iterations:
    [None] when the loop is still running after them. *)
Fixpoint while_loop (fuel : nat) (st : state) : option state :=
  if (curr_end st =? length orig_path)%nat then Some st
  else match fuel with
       | O => None
       | S fuel' => while_loop fuel' (loop_body st)
       end.

(** Lines 109-124: the state the loop starts from. *)
Definition initial_state : state :=
  State 0 0 1 0 1 [orig_path !!! 0%nat; orig_path !!! 1%nat]
    (cost_sub (accum_point_costs !!! 1%nat) (accum_point_costs !!! 0%nat)) [].

(** The result and the final value of the output parameter
    [shortcut_path]; [None] when [fuel] iterations of the loop do not
    finish the call.  The body never reads [window]. *)
Definition ShortcutPath (window fuel : nat) (shortcut_path : list PointType)
  : option (bool * list PointType) :=
  if negb (length orig_path =? length orig_path_costs + 1)%nat
  then Some (false, shortcut_path)
  else if (length orig_path <? 2)%nat
  then Some (true, shortcut_path)
  else
    match while_loop fuel initial_state with
    | None => None
    | Some st => Some (true, commit (result_traj st) (best_path st))
    end.

End WithTypes.

Arguments PathGeneratorType : clear implicits.
Arguments state : clear implicits.

End Shortcut.

(** ** The step count and the travel direction, in the words of the
  specification *)

Module InterpSpec.

Section Joint.

Variable ShortestAngleDiff : float -> float -> float.
Variable Sign : float -> Z.
Variable ceil_int : float -> Z.
(** The normalized endpoints and the per-joint data of one call. *)
Variables start_norm end_norm min_limits max_limits inc : list float.
Variable continuous_joints : list bool.
Variable eps : float.

(** The signed shortest angular difference from the normalized start to
    the normalized end of joint [j]. *)
Definition short_arc (j : nat) : float :=
  ShortestAngleDiff (end_norm !!! j) (start_norm !!! j).

(** Moving along the short arc leaves [[min, max]]: its far end is above
    the maximum or below the minimum. *)
Definition leaves_limits (j : nat) : bool :=
  gtb (start_norm !!! j + short_arc j)%float (max_limits !!! j)
  || PrimFloat.ltb (start_norm !!! j + short_arc j)%float (min_limits !!! j).

(** The short-arc magnitude if the short arc stays inside the limits,
    otherwise the full turn minus the short-arc magnitude. *)
Definition distance (j : nat) : float :=
  if leaves_limits j then (TWO_PI - fabs (short_arc j))%float
  else fabs (short_arc j).

(** The endpoint gap is below epsilon, or no larger than the increment. *)
Definition one_step_suffices (j : nat) : bool :=
  let gap := fabs (end_norm !!! j - start_norm !!! j)%float in
  PrimFloat.ltb gap eps || PrimFloat.leb gap (inc !!! j).

(** What joint [j] contributes to the step count. *)
Definition joint_steps (j : nat) : Z :=
  if one_step_suffices j then 1
  else ceil_int (distance j / inc !!! j)%float.

(** The direction joint [j] travels in. *)
Definition direction (j : nat) : Z :=
  if continuous_joints !!! j : bool then Sign (short_arc j)
  else if leaves_limits j then - Sign (short_arc j)
  else Sign (short_arc j).

End Joint.

(** The maximum of [f] over the joints [0 .. dim-1]; there is none when
  there is no joint. *)
Definition max_over_joints (dim : nat) (f : nat -> Z) : option Z :=
match dim with
| O => None
| S n => Some (foldr Z.max (f 0%nat) (f <$> seq 1 n))
end.

(** [m] is the greatest of the values [f 0 .. f (dim-1)]. *)
Definition is_max_over_joints (dim : nat) (f : nat -> Z) (m : Z) : Prop :=
(forall j, (j < dim)%nat -> f j <= m) /\ exists j, (j < dim)%nat /\ m = f j.

(** The number of interpolation steps a path was produced with. *)
Definition step_count (path : list (list float)) : Z :=
Z.of_nat (length path) - 1.

End InterpSpec.

(** ** Fixtures for [ShortcutPath]: points are numbers, costs are integers *)

Module ShortcutFixtures.

(** A generator that proposes the direct segment at no cost. *)
Definition direct : Shortcut.PathGeneratorType nat Z :=
  {| Shortcut.generate_path a b := Some ([a; b], 0) |}.

(** [ShortcutPath] on [nat] points with [Z] costs compared by [<=]. *)
Definition ShortcutPath (orig_path : list nat) (orig_path_costs : list Z)
    (path_generators : list (Shortcut.PathGeneratorType nat Z))
    (shortcut_path : list nat) (window granularity fuel : nat)
  : option (bool * list nat) :=
  Shortcut.ShortcutPath 0 Z.add Z.sub orig_path orig_path_costs path_generators
    granularity Z.leb window fuel shortcut_path.

End ShortcutFixtures.

(** ** The overloads of [InterpolatePath] and the tests of its loops *)

Module InterpOverloads.

(** [const double eps = 1e-6] of the overloads without an epsilon. *)
Definition eps_default : float := 0x1.0c6f7a0b5ed8dp-20%float.

Section WithAngleUtils.

Variable NormalizeAngle : float -> float -> float -> float.
Variable ShortestAngleDiff : float -> float -> float.
Variable Sign : float -> Z.
Variable ceil_int : float -> Z.

(** Lines 45-53: no flags and no epsilon; every joint is bounded. *)
Definition InterpolatePath_bounded (start end_ min_limits max_limits inc
    : list float) (path : list (list float)) : bool * list (list float) :=
  let continuous_joints := replicate (length start) false in
  let eps := eps_default in
  Interp.InterpolatePath NormalizeAngle ShortestAngleDiff Sign ceil_int start
    end_ min_limits max_limits inc continuous_joints eps path.

(** Lines 55-62: no flags; every joint is bounded. *)
Definition InterpolatePath_bounded_eps (start end_ min_limits max_limits inc
    : list float) (eps : float) (path : list (list float))
  : bool * list (list float) :=
  let continuous_joints := replicate (length start) false in
  Interp.InterpolatePath NormalizeAngle ShortestAngleDiff Sign ceil_int start
    end_ min_limits max_limits inc continuous_joints eps path.

(** Lines 64-71: no epsilon. *)
Definition InterpolatePath_flags (start end_ min_limits max_limits inc
    : list float) (continuous_joints : list bool) (path : list (list float))
  : bool * list (list float) :=
  let eps := eps_default in
  Interp.InterpolatePath NormalizeAngle ShortestAngleDiff Sign ceil_int start
    end_ min_limits max_limits inc continuous_joints eps path.

(** Lines 33-34: the value [NormalizeAnglesIntoRange] writes to
    [angles[i]]. *)
Definition normalized_angle (angles min_limits : list float) (i : nat)
  : float :=
  NormalizeAngle (angles !!! i) (min_limits !!! i)
    (NormalizeAngle (min_limits !!! i) 0%float TWO_PI).

End WithAngleUtils.

(** Line 35: [angle < lo || angle > hi]. *)
Definition outside_limits (angle lo hi : float) : bool :=
  PrimFloat.ltb angle lo || gtb angle hi.

End InterpOverloads.

(** ** The states of the [ShortcutPath] loop *)

Module ShortcutStates.

Import Shortcut.

Section WithTypes.

Context {PointType CostType : Type} `{!Inhabited PointType}.
Variable cost_zero : CostType.
Variables cost_add cost_sub : CostType -> CostType -> CostType.
Variable orig_path : list PointType.
Variable orig_path_costs : list CostType.
Variable path_generators : list (PathGeneratorType PointType CostType).
Variable granularity : nat.
Variable leq : CostType -> CostType -> bool.

#[local] Hint Extern 0 (Inhabited CostType) =>
  exact (cost_inhabited cost_zero) : typeclass_instances.

(** What lines 127-142 leave in [cost_improved], [best_path] and [best_cost]
    when an iteration starts in state [st]. *)
Definition proposals (st : state PointType CostType)
  : bool * list PointType * CostType :=
  try_generators cost_zero cost_add cost_sub orig_path orig_path_costs leq
    path_generators (orig_path !!! curr_start st) (orig_path !!! curr_end st)
    (end_index st) false (best_path st) (best_cost st).

(** [cost_improved] at line 144. *)
Definition cost_improved (st : state PointType CostType) : bool :=
  (proposals st).1.1.

(** The state after [k] iterations of the loop body. *)
Definition state_after (k : nat) : state PointType CostType :=
  Nat.iter k
    (loop_body cost_zero cost_add cost_sub orig_path orig_path_costs
       path_generators granularity leq)
    (initial_state cost_zero cost_add cost_sub orig_path orig_path_costs).

(** The integer indices mirror the iterators, and the window
    [curr_start <= last_end < curr_end] lies inside the path or ends at its
    end. *)
Definition indices_in_step (st : state PointType CostType) : Prop :=
  (1 <= curr_end st <= length orig_path)%nat
  /\ end_index st = curr_end st
  /\ last_end st = (curr_end st - 1)%nat
  /\ start_index st = curr_start st
  /\ (curr_start st <= last_end st)%nat.

(** The state a commit leaves (lines 169-177), which is also the state the
    loop starts from: the window is the single segment before [curr_end] and
    the best path is that segment at its original cost. *)
Definition just_committed (st : state PointType CostType) : Prop :=
  curr_start st = last_end st
  /\ start_index st = (end_index st - 1)%nat
  /\ best_path st = [orig_path !!! curr_start st; orig_path !!! curr_end st]
  /\ best_cost st
     = cost_sub
         (accum_point_costs cost_zero cost_add orig_path orig_path_costs
            !!! end_index st)
         (accum_point_costs cost_zero cost_add orig_path orig_path_costs
            !!! start_index st).

(** [l] has at least two points and starts at [x]. *)
Definition starts_at (x : PointType) (l : list PointType) : Prop :=
  exists y rest, l = x :: y :: rest.

(** [l] is not empty and ends at [x]. *)
Definition ends_at (x : PointType) (l : list PointType) : Prop :=
  exists front, l = front ++ [x].

(** A generator whose every proposal leads from its first argument to its
    second. *)
Definition connects (it : PathGeneratorType PointType CostType) : Prop :=
  forall a b path cost,
    generate_path it a b = Some (path, cost) -> exists mid, path = a :: mid ++ [b].

End WithTypes.

End ShortcutStates.

(** ** More generators for the fixtures *)

Module ShortcutGenerators.

(** A generator that never finds a path. *)
Definition never : Shortcut.PathGeneratorType nat Z :=
  {| Shortcut.generate_path _ _ := None |}.

(** A generator that proposes the direct segment at a cost of 100. *)
Definition costly : Shortcut.PathGeneratorType nat Z :=
  {| Shortcut.generate_path a b := Some ([a; b], 100) |}.

End ShortcutGenerators.

(** * Properties *)

(** ** [NormalizeAnglesIntoRange] and [InterpolatePath] *)

Module InterpFacts.

Import Interp.

Section WithAngleUtils.

Variable NormalizeAngle : float -> float -> float -> float.
Variable ShortestAngleDiff : float -> float -> float.
Variable Sign : float -> Z.
Variable ceil_int : float -> Z.

Implicit Types (angles start min_limits max_limits inc : list float).
Implicit Types (start_norm end_norm curr_cfg : list float).
Implicit Types (continuous_joints : list bool) (travel_dirs : list Z).
Implicit Types (path : list (list float)) (eps : float).

Local Abbreviation NormalizeAnglesIntoRange := (NormalizeAnglesIntoRange NormalizeAngle).
Local Abbreviation InterpolatePath :=
  (InterpolatePath NormalizeAngle ShortestAngleDiff Sign ceil_int).

(** *** The loops of [NormalizeAnglesIntoRange] *)

Lemma limits_ordered_from_false n i min_limits max_limits j :
  (i <= j < i + n)%nat ->
  gtb (min_limits !!! j) (max_limits !!! j) = true ->
  limits_ordered_from n i min_limits max_limits = false.
Proof.
  revert i. induction n as [|n IH]; intros i Hj Hgt; [lia|].
  cbn [limits_ordered_from].
  destruct (decide (i = j)) as [->|Hne].
  - by rewrite Hgt.
  - destruct (gtb (min_limits !!! i) _); [done|]. apply IH; [lia|done].
Qed.

Lemma normalize_from_length n i angles min_limits max_limits :
  length (normalize_from NormalizeAngle n i angles min_limits max_limits).2
  = length angles.
Proof.
  revert i angles. induction n as [|n IH]; intros i angles; [done|].
  cbn [normalize_from]. cbv zeta.
  destruct (_ || _); cbn [snd].
  - by rewrite length_insert.
  - by rewrite IH, length_insert.
Qed.

Lemma NormalizeAnglesIntoRange_length angles min_limits max_limits :
  length (NormalizeAnglesIntoRange angles min_limits max_limits).2
  = length angles.
Proof.
  unfold Interp.NormalizeAnglesIntoRange. cbv zeta.
  destruct (_ || _); [done|].
  destruct (negb _); [done|]. apply normalize_from_length.
Qed.

(** *** The loop that fills [travel_dirs] *)

Lemma travel_dirs_from_length n i start_norm end_norm min_limits max_limits
    continuous_joints travel_dirs :
  length (travel_dirs_from ShortestAngleDiff Sign n i start_norm end_norm
            min_limits max_limits continuous_joints travel_dirs)
  = length travel_dirs.
Proof.
  revert i travel_dirs. induction n as [|n IH]; intros i dirs; [done|].
  cbn [travel_dirs_from]. by rewrite IH, length_insert.
Qed.

Lemma travel_dirs_from_lookup n i start_norm end_norm min_limits max_limits
    continuous_joints travel_dirs j :
  (i + n <= length travel_dirs)%nat ->
  travel_dirs_from ShortestAngleDiff Sign n i start_norm end_norm min_limits
    max_limits continuous_joints travel_dirs !!! j
  = if decide (i <= j < i + n)%nat
    then travel_dir ShortestAngleDiff Sign start_norm end_norm min_limits
           max_limits continuous_joints j
    else travel_dirs !!! j.
Proof.
  revert i travel_dirs. induction n as [|n IH]; intros i dirs Hlen.
  - cbn [travel_dirs_from]. case_decide; [lia|done].
  - cbn [travel_dirs_from]. rewrite IH by (rewrite length_insert; lia).
    destruct (decide (i = j)) as [->|Hne].
    + rewrite list_lookup_total_insert_eq by lia.
      repeat case_decide; try lia; done.
    + rewrite list_lookup_total_insert_ne by done.
      repeat case_decide; try lia; done.
Qed.

(** Every entry of [travel_dirs] is the direction computed for its joint. *)
Lemma compute_travel_dirs_lookup dim start_norm end_norm min_limits max_limits
    continuous_joints j :
  (j < dim)%nat ->
  compute_travel_dirs ShortestAngleDiff Sign dim start_norm end_norm
    min_limits max_limits continuous_joints !!! j
  = travel_dir ShortestAngleDiff Sign start_norm end_norm min_limits
      max_limits continuous_joints j.
Proof.
  intros Hj. unfold compute_travel_dirs.
  rewrite travel_dirs_from_lookup by (rewrite length_replicate; lia).
  case_decide; [done|lia].
Qed.

(** *** The loop that computes [max_iterations] *)

Lemma max_iterations_from_bounds n i start_norm end_norm min_limits max_limits
    inc eps acc :
  let f := max_iters_for_angle ShortestAngleDiff ceil_int start_norm end_norm
             min_limits max_limits inc eps in
  let m := max_iterations_from ShortestAngleDiff ceil_int n i start_norm
             end_norm min_limits max_limits inc eps acc in
  acc <= m
  /\ (forall j, (i <= j < i + n)%nat -> f j <= m)
  /\ (m = acc \/ exists j, (i <= j < i + n)%nat /\ m = f j).
Proof.
  cbv zeta. revert i acc. induction n as [|n IH]; intros i acc.
  - cbn [max_iterations_from]. split; [lia|]. split; [intros; lia|by left].
  - cbn [max_iterations_from].
    destruct (IH (S i) (Z.max acc
      (max_iters_for_angle ShortestAngleDiff ceil_int start_norm end_norm
         min_limits max_limits inc eps i))) as (Hge & Hub & Hmax).
    split; [lia|]. split.
    + intros j Hj. destruct (decide (j = i)) as [->|Hne]; [lia|].
      apply Hub. lia.
    + destruct Hmax as [Heq|(j & Hj & Heq)].
      * destruct (Z.max_spec acc
          (max_iters_for_angle ShortestAngleDiff ceil_int start_norm end_norm
             min_limits max_limits inc eps i)) as [[_ Hm]|[_ Hm]].
        -- right. exists i. split; lia.
        -- left. lia.
      * right. exists j. split; [lia|done].
Qed.

(** *** The stepping loops *)

Lemma interpolate_loop_length c dim end_norm min_limits max_limits inc
    travel_dirs curr_cfg path :
  length (interpolate_loop ShortestAngleDiff c dim end_norm min_limits
            max_limits inc travel_dirs curr_cfg path)
  = (length path + c)%nat.
Proof.
  revert curr_cfg path. induction c as [|c IH]; intros cfg path.
  - cbn [interpolate_loop]. lia.
  - cbn [interpolate_loop]. cbv zeta. rewrite IH, length_app. cbn. lia.
Qed.

Lemma interpolate_loop_prefix c dim end_norm min_limits max_limits inc
    travel_dirs curr_cfg path :
  exists more,
    interpolate_loop ShortestAngleDiff c dim end_norm min_limits max_limits
      inc travel_dirs curr_cfg path = path ++ more.
Proof.
  revert curr_cfg path. induction c as [|c IH]; intros cfg path.
  - exists []. cbn [interpolate_loop]. by rewrite app_nil_r.
  - cbn [interpolate_loop]. cbv zeta.
    edestruct IH as [more ->]. eexists. by rewrite <- app_assoc.
Qed.

(** *** [InterpolatePath] as a whole *)

Lemma same_dimension_true start (end_ : list float) min_limits max_limits inc
    continuous_joints :
  same_dimension start end_ min_limits max_limits inc continuous_joints = true
  <-> length end_ = length start /\ length min_limits = length start
      /\ length max_limits = length start /\ length inc = length start
      /\ length continuous_joints = length start.
Proof.
  unfold same_dimension. cbv zeta.
  rewrite !andb_true_iff, !Nat.eqb_eq. intuition congruence.
Qed.

(** A failing call leaves [path] empty: every [return false] comes before
    the first [push_back]. *)
Lemma InterpolatePath_failure start (end_ : list float) min_limits max_limits
    inc continuous_joints eps path0 r :
  InterpolatePath start end_ min_limits max_limits inc continuous_joints eps
    path0 = (false, r) ->
  r = [].
Proof.
  unfold Interp.InterpolatePath. cbv zeta.
  destruct (negb _); [congruence|].
  destruct (NormalizeAnglesIntoRange start _ _) as [[] ?]; [|congruence].
  destruct (NormalizeAnglesIntoRange end_ _ _) as [[] ?]; congruence.
Qed.

(** What a successful call went through. *)
Lemma InterpolatePath_success start (end_ : list float) min_limits max_limits
    inc continuous_joints eps path0 path :
  InterpolatePath start end_ min_limits max_limits inc continuous_joints eps
    path0 = (true, path) ->
  exists start_norm end_norm,
    same_dimension start end_ min_limits max_limits inc continuous_joints = true
    /\ NormalizeAnglesIntoRange start min_limits max_limits = (true, start_norm)
    /\ NormalizeAnglesIntoRange end_ min_limits max_limits = (true, end_norm)
    /\ path =
         interpolate_loop ShortestAngleDiff
           (Z.to_nat
              (compute_max_iterations ShortestAngleDiff ceil_int (length start)
                 start_norm end_norm min_limits max_limits inc eps))
           (length start) end_norm min_limits max_limits inc
           (compute_travel_dirs ShortestAngleDiff Sign (length start) start_norm
              end_norm min_limits max_limits continuous_joints)
           start_norm [start_norm].
Proof.
  unfold Interp.InterpolatePath. cbv zeta.
  destruct (same_dimension _ _ _ _ _ _) eqn:Hdim; cbn [negb]; [|congruence].
  destruct (NormalizeAnglesIntoRange start _ _) as [[] start_norm] eqn:Hs;
    [|congruence].
  destruct (NormalizeAnglesIntoRange end_ _ _) as [[] end_norm] eqn:He;
    [|congruence].
  intros [= <-]. by exists start_norm, end_norm.
Qed.

Lemma compute_max_iterations_nonneg dim start_norm end_norm min_limits
    max_limits inc eps :
  0 <= compute_max_iterations ShortestAngleDiff ceil_int dim start_norm end_norm
         min_limits max_limits inc eps.
Proof.
  unfold compute_max_iterations.
  apply (max_iterations_from_bounds dim 0 start_norm end_norm min_limits
           max_limits inc eps 0).
Qed.

(** The parts of the endpoint property that hold on every successful call:
    the path starts with the normalized start and has one point more than
    there were iterations. *)
Lemma InterpolatePath_first_point_and_length start (end_ : list float)
    min_limits max_limits inc continuous_joints eps path0 path :
  InterpolatePath start end_ min_limits max_limits inc continuous_joints eps
    path0 = (true, path) ->
  exists start_norm,
    NormalizeAnglesIntoRange start min_limits max_limits = (true, start_norm)
    /\ path !! 0%nat = Some start_norm
    /\ InterpSpec.step_count path
       = compute_max_iterations ShortestAngleDiff ceil_int (length start)
           start_norm
           (NormalizeAnglesIntoRange end_ min_limits max_limits).2
           min_limits max_limits inc eps.
Proof.
  intros (start_norm & end_norm & _ & Hs & He & ->)%InterpolatePath_success.
  exists start_norm. split; [done|]. rewrite He. cbn [snd]. split.
  - edestruct interpolate_loop_prefix as [more ->]. done.
  - unfold InterpSpec.step_count. rewrite interpolate_loop_length. cbn [length].
    pose proof (compute_max_iterations_nonneg (length start) start_norm end_norm
                  min_limits max_limits inc eps).
    lia.
Qed.

(** *** The code's per-joint quantities are the specification's *)

Lemma max_iters_for_angle_joint_steps start_norm end_norm min_limits max_limits
    inc eps j :
  max_iters_for_angle ShortestAngleDiff ceil_int start_norm end_norm min_limits
    max_limits inc eps j
  = InterpSpec.joint_steps ShortestAngleDiff ceil_int start_norm end_norm
      min_limits max_limits inc eps j.
Proof.
  unfold max_iters_for_angle, InterpSpec.joint_steps,
    InterpSpec.one_step_suffices, angle_dist, InterpSpec.distance,
    short_arc_leaves_limits, InterpSpec.leaves_limits, InterpSpec.short_arc,
    TWO_PI.
  cbv zeta. by destruct (PrimFloat.ltb _ eps).
Qed.

Lemma travel_dir_direction start_norm end_norm min_limits max_limits
    continuous_joints j :
  travel_dir ShortestAngleDiff Sign start_norm end_norm min_limits max_limits
    continuous_joints j
  = InterpSpec.direction ShortestAngleDiff Sign start_norm end_norm min_limits
      max_limits continuous_joints j.
Proof. reflexivity. Qed.

Lemma foldr_max_swap (a b : Z) (l : list Z) :
  Z.max b (foldr Z.max a l) = Z.max a (foldr Z.max b l).
Proof. induction l as [|x l IH]; cbn [foldr]; lia. Qed.

Lemma foldr_max_base (a b : Z) (l : list Z) :
  foldr Z.max (Z.max a b) l = Z.max b (foldr Z.max a l).
Proof. induction l as [|x l IH]; cbn [foldr]; lia. Qed.

Lemma max_iterations_from_foldr n i start_norm end_norm min_limits max_limits
    inc eps acc :
  max_iterations_from ShortestAngleDiff ceil_int n i start_norm end_norm
    min_limits max_limits inc eps acc
  = foldr Z.max acc
      (max_iters_for_angle ShortestAngleDiff ceil_int start_norm end_norm
         min_limits max_limits inc eps <$> seq i n).
Proof.
  revert i acc. induction n as [|n IH]; intros i acc; [done|].
  cbn [max_iterations_from seq fmap list_fmap foldr]. rewrite IH.
  apply foldr_max_base.
Qed.

(** [max_iterations] is the larger of zero and the maximum of the joints'
    step counts. *)
Lemma compute_max_iterations_max_over_joints dim start_norm end_norm min_limits
    max_limits inc eps :
  compute_max_iterations ShortestAngleDiff ceil_int dim start_norm end_norm
    min_limits max_limits inc eps
  = match InterpSpec.max_over_joints dim
            (InterpSpec.joint_steps ShortestAngleDiff ceil_int start_norm
               end_norm min_limits max_limits inc eps) with
    | Some m => Z.max 0 m
    | None => 0
    end.
Proof.
  unfold compute_max_iterations, InterpSpec.max_over_joints.
  rewrite max_iterations_from_foldr.
  destruct dim as [|n]; [done|].
  cbn [seq fmap list_fmap foldr].
  rewrite (foldr_max_swap 0), max_iters_for_angle_joint_steps.
  f_equal. f_equal. apply list_fmap_ext. intros ? j _.
  apply max_iters_for_angle_joint_steps.
Qed.

(** [max_over_joints] computes the greatest of the joints' values. *)
Lemma max_over_joints_is_max dim (f : nat -> Z) m :
  InterpSpec.max_over_joints dim f = Some m ->
  InterpSpec.is_max_over_joints dim f m.
Proof.
  destruct dim as [|n]; [done|]. cbn [InterpSpec.max_over_joints].
  intros [= <-].
  assert (forall k i,
            let r := foldr Z.max (f 0%nat) (f <$> seq i k) in
            f 0%nat <= r
            /\ (forall j, (i <= j < i + k)%nat -> f j <= r)
            /\ (r = f 0%nat \/ exists j, (i <= j < i + k)%nat /\ r = f j)) as H.
  { induction k as [|k IH]; intros i; cbv zeta.
    - cbn. split; [lia|]. split; [intros; lia|by left].
    - cbn [seq fmap list_fmap foldr]. destruct (IH (S i)) as (H0 & Hub & Hmax).
      split; [lia|]. split.
      + intros j Hj. destruct (decide (j = i)) as [->|Hne]; [lia|].
        specialize (Hub j). lia.
      + destruct (Z.max_spec (f i) (foldr Z.max (f 0%nat) (f <$> seq (S i) k)))
          as [[_ Hm]|[_ Hm]]; rewrite Hm.
        * destruct Hmax as [?|(j & ? & ?)]; [by left|].
          right. exists j. split; [lia|done].
        * right. exists i. split; [lia|done]. }
  destruct (H n 1%nat) as (H0 & Hub & Hmax). split.
  - intros j Hj. destruct j as [|j]; [done|]. apply Hub. lia.
  - destruct Hmax as [Heq|(j & Hj & Heq)].
    + exists 0%nat. split; [lia|done].
    + exists j. split; [lia|done].
Qed.

(** *** The claims about [NormalizeAnglesIntoRange] and [InterpolatePath] *)

(** C5, as amended: on every successful call of [InterpolatePath] the number
    of interpolation steps (the points of the path after the first) is the
    larger of zero and the maximum over all joints of the joint's step count:
    one step when the endpoint gap is below epsilon or no larger than the
    increment, otherwise [ceil(distance_j / increment_j)], where [distance_j]
    is the short-arc magnitude if the short arc stays inside the limits and
    the full turn minus the short-arc magnitude otherwise.  The count is zero
    when there is no joint. *)
Theorem InterpolatePath_step_count start (end_ : list float) min_limits
    max_limits inc continuous_joints eps path0 path :
  InterpolatePath start end_ min_limits max_limits inc continuous_joints eps
    path0 = (true, path) ->
  exists start_norm end_norm,
    NormalizeAnglesIntoRange start min_limits max_limits = (true, start_norm)
    /\ NormalizeAnglesIntoRange end_ min_limits max_limits = (true, end_norm)
    /\ InterpSpec.step_count path
       = match InterpSpec.max_over_joints (length start)
                 (InterpSpec.joint_steps ShortestAngleDiff ceil_int start_norm
                    end_norm min_limits max_limits inc eps) with
         | Some m => Z.max 0 m
         | None => 0
         end.
Proof.
  intros Hcall.
  destruct (InterpolatePath_first_point_and_length _ _ _ _ _ _ _ _ _ Hcall)
    as (start_norm & Hs & _ & Hcount).
  destruct (InterpolatePath_success _ _ _ _ _ _ _ _ _ Hcall)
    as (start_norm' & end_norm & _ & Hs' & He & _).
  assert (start_norm' = start_norm) as -> by congruence.
  exists start_norm, end_norm. split; [done|]. split; [done|].
  rewrite Hcount, He. cbn [snd].
  apply compute_max_iterations_max_over_joints.
Qed.

(** C6: on every successful call of [InterpolatePath], the path is stepped
    with one travel direction per joint, chosen as follows.  For a continuous
    joint it is the sign of the signed shortest angular difference from the
    normalized start to the normalized end.  For a bounded joint it is that
    sign, unless moving along the shortest arc would leave the joint's
    [[min, max]] interval, in which case it is the opposite sign. *)
Theorem InterpolatePath_travel_direction start (end_ : list float) min_limits
    max_limits inc continuous_joints eps path0 path :
  InterpolatePath start end_ min_limits max_limits inc continuous_joints eps
    path0 = (true, path) ->
  exists start_norm end_norm travel_dirs,
    NormalizeAnglesIntoRange start min_limits max_limits = (true, start_norm)
    /\ NormalizeAnglesIntoRange end_ min_limits max_limits = (true, end_norm)
    /\ path = interpolate_loop ShortestAngleDiff (length path - 1)
                (length start) end_norm min_limits max_limits inc travel_dirs
                start_norm [start_norm]
    /\ forall j, (j < length start)%nat ->
         let shortest :=
           InterpSpec.short_arc ShortestAngleDiff start_norm end_norm j in
         let leaves :=
           InterpSpec.leaves_limits ShortestAngleDiff start_norm end_norm
             min_limits max_limits j in
         (continuous_joints !!! j = true ->
            travel_dirs !!! j = Sign shortest)
         /\ (continuous_joints !!! j = false -> leaves = false ->
               travel_dirs !!! j = Sign shortest)
         /\ (continuous_joints !!! j = false -> leaves = true ->
               travel_dirs !!! j = - Sign shortest).
Proof.
  intros (start_norm & end_norm & _ & Hs & He & Hpath)%InterpolatePath_success.
  exists start_norm, end_norm,
    (compute_travel_dirs ShortestAngleDiff Sign (length start) start_norm
       end_norm min_limits max_limits continuous_joints).
  split; [done|]. split; [done|]. split.
  - rewrite Hpath at 2. rewrite interpolate_loop_length. cbn [length].
    by replace (1 + _ - 1)%nat with
      (Z.to_nat (compute_max_iterations ShortestAngleDiff ceil_int
                   (length start) start_norm end_norm min_limits max_limits
                   inc eps)) by lia.
  - intros j Hj. cbv zeta.
    rewrite compute_travel_dirs_lookup, travel_dir_direction by done.
    unfold InterpSpec.direction.
    repeat split; intros Hc; rewrite Hc; try done; by intros ->.
Qed.

(** C7, as amended: whenever the six vectors (start, end, min_limits,
    max_limits, increments, continuous flags) do not all share the same
    dimension, [InterpolatePath] returns failure and leaves the output path
    empty, whatever it held before. *)
Theorem InterpolatePath_dimension_mismatch start (end_ : list float) min_limits
    max_limits inc continuous_joints eps path0 :
  ~ (length end_ = length start /\ length min_limits = length start
     /\ length max_limits = length start /\ length inc = length start
     /\ length continuous_joints = length start) ->
  InterpolatePath start end_ min_limits max_limits inc continuous_joints eps
    path0 = (false, []).
Proof.
  intros Hdim. unfold Interp.InterpolatePath. cbv zeta.
  destruct (same_dimension _ _ _ _ _ _) eqn:Hsame; [|done].
  by apply same_dimension_true in Hsame.
Qed.

(** C9: whenever [NormalizeAnglesIntoRange] returns false because the three
    input vectors differ in length, or because some min limit exceeds the
    corresponding max limit, the angles vector is left exactly as it was
    passed in. *)
Theorem NormalizeAnglesIntoRange_invalid_keeps_angles angles min_limits
    max_limits :
  length min_limits <> length angles
  \/ length max_limits <> length angles
  \/ (exists i, (i < length angles)%nat
                /\ gtb (min_limits !!! i) (max_limits !!! i) = true) ->
  NormalizeAnglesIntoRange angles min_limits max_limits = (false, angles).
Proof.
  intros Hbad. unfold Interp.NormalizeAnglesIntoRange. cbv zeta.
  destruct (length min_limits =? length angles)%nat eqn:Hmin; cbn [negb orb];
    [|done].
  destruct (length max_limits =? length angles)%nat eqn:Hmax; cbn [negb];
    [|done].
  apply Nat.eqb_eq in Hmin, Hmax.
  destruct Hbad as [?|[?|(i & Hi & Hgt)]]; [done|done|].
  by rewrite (limits_ordered_from_false _ 0 _ _ i) by (done || lia).
Qed.

(** C10: [InterpolatePath] clears the caller-supplied output path before any
    validation, so whenever it returns failure (dimension mismatch, invalid
    limits, or un-normalizable start or end) the output path is the empty
    sequence, regardless of its prior contents. *)
Theorem InterpolatePath_failure_clears_path start (end_ : list float)
    min_limits max_limits inc continuous_joints eps path0 :
  (InterpolatePath start end_ min_limits max_limits inc continuous_joints eps
     path0).1 = false ->
  (InterpolatePath start end_ min_limits max_limits inc continuous_joints eps
     path0).2 = [].
Proof.
  destruct (InterpolatePath _ _ _ _ _ _ _ _) as [ok r] eqn:Hcall.
  cbn [fst snd]. intros ->. by eapply InterpolatePath_failure.
Qed.

(** When a call fails. *)
Lemma InterpolatePath_fails_iff start (end_ : list float) min_limits max_limits
    inc continuous_joints eps path0 :
  (InterpolatePath start end_ min_limits max_limits inc continuous_joints eps
     path0).1 = false
  <-> same_dimension start end_ min_limits max_limits inc continuous_joints
      = false
      \/ (NormalizeAnglesIntoRange start min_limits max_limits).1 = false
      \/ (NormalizeAnglesIntoRange end_ min_limits max_limits).1 = false.
Proof.
  unfold Interp.InterpolatePath. cbv zeta.
  destruct (same_dimension _ _ _ _ _ _); cbn [negb fst]; [|by intuition].
  destruct (NormalizeAnglesIntoRange start _ _) as [[] ?]; cbn [fst];
    [|by intuition].
  destruct (NormalizeAnglesIntoRange end_ _ _) as [[] ?]; cbn [fst];
    intuition congruence.
Qed.

End WithAngleUtils.

(** *** The calls evaluated on doubles *)

Section OnDoubles.

Import AngleModel.
Local Open Scope float_scope.

(** C1: the call start = [0], end = [0.25], limits [-pi, pi], increment 0.5,
    bounded joint, succeeds with the two-point path [0], [-0.25].  The path
    has step count + 1 points and starts at the normalized start, but its
    last point is not the normalized end within epsilon: the joint has moved
    away from its target, and the gap [|-0.25 - 0.25|] is not below epsilon. *)
Theorem InterpolatePath_last_point_misses_end :
  NormalizeAnglesIntoRange [0] [- M_PI] [M_PI] = (true, [0])
  /\ NormalizeAnglesIntoRange [0.25] [- M_PI] [M_PI] = (true, [0.25])
  /\ InterpolatePath [0] [0.25] [- M_PI] [M_PI] [0.5] [false] default_eps []
     = (true, [[0]; [-0.25]])
  /\ PrimFloat.ltb (fabs (-0.25 - 0.25)) default_eps = false.
Proof. vm_compute. done. Qed.

(** The two calls of [ShortestAngleDiff] in [InterpolatePath] take the target
    first for the direction (line 103) and last for the terminal correction
    (line 149), so the opposite reading of its sign does not reach the end
    either: from 0 towards 1 in steps of 0.25 the joint then walks to -1. *)
Lemma InterpolatePath_last_point_misses_end_reversed :
  Interp.InterpolatePath NormalizeAngle ShortestAngleDiff_reversed Sign
    ceil_to_int [0] [1] [- M_PI] [M_PI] [0.25] [false] default_eps []
  = (true, [[0]; [-0.25]; [-0.5]; [-0.75]; [-1]]).
Proof. vm_compute. done. Qed.

(** C2: the call start = [1], end = [0.75], limits [-1, 1], increment 0.5,
    bounded joint, succeeds with the path [1], [1.25], whose second
    configuration is above the joint's maximum. *)
Theorem InterpolatePath_bounded_joint_leaves_limits :
  InterpolatePath [1] [0.75] [-1] [1] [0.5] [false] default_eps []
  = (true, [[1]; [1.25]])
  /\ AreJointsWithinLimits [1] [-1] [1] = true
  /\ AreJointsWithinLimits [1.25] [-1] [1] = false.
Proof. vm_compute. done. Qed.

(** The same without the terminal correction taking part: a continuous joint
    with limits [-pi, 3] that steps from -2.5 below -pi is wrapped by a full
    turn to a value above 3. *)
Lemma InterpolatePath_continuous_joint_leaves_limits :
  (InterpolatePath [-2.5] [2.5] [- M_PI] [3] [0.5] [true] default_eps []).1
  = true
  /\ AreJointsWithinLimits
       ((InterpolatePath [-2.5] [2.5] [- M_PI] [3] [0.5] [true] default_eps
           []).2 !!! 3%nat)
       [- M_PI] [3]
     = false.
Proof. vm_compute. done. Qed.

(** C5 as stated fails on a negative increment: the call succeeds with no
    step at all, while the maximum over the joints of the per-joint count is
    [ceil(1 / -0.5) = -2]. *)
Lemma InterpolatePath_step_count_negative_increment :
  NormalizeAnglesIntoRange [0] [- M_PI] [M_PI] = (true, [0])
  /\ NormalizeAnglesIntoRange [1] [- M_PI] [M_PI] = (true, [1])
  /\ InterpolatePath [0] [1] [- M_PI] [M_PI] [-0.5] [false] default_eps []
     = (true, [[0]])
  /\ InterpSpec.step_count [[0]] = 0%Z
  /\ InterpSpec.max_over_joints 1
       (InterpSpec.joint_steps ShortestAngleDiff ceil_to_int [0] [1] [- M_PI]
          [M_PI] [-0.5] default_eps)
     = Some (-2)%Z.
Proof. vm_compute. done. Qed.

(** C7 as stated fails on a non-empty output parameter: with a start of
    size 3 and an end of size 2 the call fails, and the path that held one
    configuration comes back empty. *)
Lemma InterpolatePath_mismatch_clears_path :
  InterpolatePath [0; 0; 0] [0; 0] [- M_PI; - M_PI; - M_PI] [M_PI; M_PI; M_PI]
    [0.5; 0.5; 0.5] [false; false; false] default_eps [[1; 1; 1]]
  = (false, []).
Proof. vm_compute. done. Qed.

(** *** The theorems at concrete calls *)

(** The example of a half turn in steps of 0.5: seven steps. *)
Lemma InterpolatePath_step_count_witness :
  let call :=
    InterpolatePath [0] [M_PI] [- M_PI] [M_PI] [0.5] [false] default_eps [] in
  call.1 = true
  /\ InterpSpec.step_count call.2 = 7%Z
  /\ exists start_norm end_norm,
       NormalizeAnglesIntoRange [0] [- M_PI] [M_PI] = (true, start_norm)
       /\ NormalizeAnglesIntoRange [M_PI] [- M_PI] [M_PI] = (true, end_norm)
       /\ InterpSpec.step_count call.2
          = match InterpSpec.max_over_joints 1
                    (InterpSpec.joint_steps ShortestAngleDiff ceil_to_int
                       start_norm end_norm [- M_PI] [M_PI] [0.5] default_eps)
            with
            | Some m => Z.max 0 m
            | None => 0%Z
            end.
Proof.
  cbv zeta. split; [by vm_compute|]. split; [by vm_compute|].
  apply (InterpolatePath_step_count NormalizeAngle ShortestAngleDiff Sign
           ceil_to_int [0] [M_PI] [- M_PI] [M_PI] [0.5] [false] default_eps []).
  by vm_compute.
Defined.

(** A bounded joint whose short arc from -2.5 to 2.5 would cross the lower
    limit: it travels the long way round, in the positive direction. *)
Lemma InterpolatePath_travel_direction_witness :
  let call :=
    InterpolatePath [-2.5] [2.5] [- M_PI] [3] [0.5] [false] default_eps [] in
  call.1 = true
  /\ exists start_norm end_norm travel_dirs,
       NormalizeAnglesIntoRange [-2.5] [- M_PI] [3] = (true, start_norm)
       /\ NormalizeAnglesIntoRange [2.5] [- M_PI] [3] = (true, end_norm)
       /\ call.2 = Interp.interpolate_loop ShortestAngleDiff
                     (length call.2 - 1) 1 end_norm [- M_PI] [3] [0.5]
                     travel_dirs start_norm [start_norm]
       /\ forall j, (j < 1)%nat ->
            let shortest :=
              InterpSpec.short_arc ShortestAngleDiff start_norm end_norm j in
            let leaves :=
              InterpSpec.leaves_limits ShortestAngleDiff start_norm end_norm
                [- M_PI] [3] j in
            ([false] !!! j = true -> travel_dirs !!! j = Sign shortest)
            /\ ([false] !!! j = false -> leaves = false ->
                  travel_dirs !!! j = Sign shortest)
            /\ ([false] !!! j = false -> leaves = true ->
                  travel_dirs !!! j = (- Sign shortest)%Z).
Proof.
  cbv zeta. split; [by vm_compute|].
  apply (InterpolatePath_travel_direction NormalizeAngle ShortestAngleDiff Sign
           ceil_to_int [-2.5] [2.5] [- M_PI] [3] [0.5] [false] default_eps []).
  by vm_compute.
Defined.

(** A start of size 3 against an end of size 2. *)
Lemma InterpolatePath_dimension_mismatch_witness :
  InterpolatePath [0; 0; 0] [0; 0] [- M_PI; - M_PI; - M_PI] [M_PI; M_PI; M_PI]
    [0.5; 0.5; 0.5] [false; false; false] default_eps [[1; 1; 1]]
  = (false, []).
Proof.
  apply (InterpolatePath_dimension_mismatch NormalizeAngle ShortestAngleDiff
           Sign ceil_to_int).
  cbn [length]. intros (Hlen & _). discriminate Hlen.
Defined.

(** Limits of the second joint in the wrong order: min 0 above max -1. *)
Lemma NormalizeAnglesIntoRange_invalid_keeps_angles_witness :
  NormalizeAnglesIntoRange [7; 100] [- M_PI; 0] [M_PI; -1]
  = (false, [7; 100]).
Proof.
  apply (NormalizeAnglesIntoRange_invalid_keeps_angles NormalizeAngle).
  right. right. exists 1%nat. split; [cbn [length]; lia|by vm_compute].
Defined.

(** Limits in the wrong order make the call fail; the path that held one
    configuration comes back empty. *)
Lemma InterpolatePath_failure_clears_path_witness :
  let call :=
    InterpolatePath [0] [1] [1] [-1] [0.5] [false] default_eps [[9]] in
  call.1 = false /\ call.2 = [].
Proof.
  cbv zeta. split; [by vm_compute|].
  apply (InterpolatePath_failure_clears_path NormalizeAngle ShortestAngleDiff
           Sign ceil_to_int).
  by vm_compute.
Defined.

End OnDoubles.

End InterpFacts.

(** ** [ShortcutPath] *)

Module ShortcutFacts.

Import Shortcut.

Section WithTypes.

Context {PointType CostType : Type} `{!Inhabited PointType}.
Variable cost_zero : CostType.
Variables cost_add cost_sub : CostType -> CostType -> CostType.
Variable orig_path : list PointType.
Variable orig_path_costs : list CostType.
Variable granularity : nat.
Variable leq : CostType -> CostType -> bool.

Local Abbreviation loop_body_without_generators :=
  (loop_body cost_zero cost_add cost_sub orig_path orig_path_costs []
     granularity leq).

(** Without a generator an iteration takes the commit branch, which moves
    [curr_start] and leaves [curr_end] where it is. *)
Lemma loop_body_without_generators_curr_end (st : state PointType CostType) :
  curr_end (loop_body_without_generators st) = curr_end st
  /\ last_end (loop_body_without_generators st) = last_end st
  /\ end_index (loop_body_without_generators st) = end_index st.
Proof. done. Qed.

Lemma while_loop_without_generators fuel (st : state PointType CostType) :
  curr_end st <> length orig_path ->
  while_loop cost_zero cost_add cost_sub orig_path orig_path_costs []
    granularity leq fuel st = None.
Proof.
  revert st. induction fuel as [|fuel IH]; intros st Hne;
    cbn [while_loop]; apply Nat.eqb_neq in Hne as Hb; rewrite Hb; [done|].
  apply IH. by cbn.
Qed.

Lemma replicate_app_cons {A} (n : nat) (x : A) (l : list A) :
  replicate n x ++ x :: l = x :: replicate n x ++ l.
Proof. induction n as [|n IH]; [done|]. cbn. by rewrite IH. Qed.

(** What the iterations do meanwhile: after [k + 1] of them the result holds
    [k + 1] copies of the first point and then the second. *)
Lemma iterate_without_generators (k : nat) :
  let st :=
    Nat.iter (S k) loop_body_without_generators
      (initial_state cost_zero cost_add cost_sub orig_path orig_path_costs) in
  curr_start st = 0%nat /\ last_end st = 0%nat /\ curr_end st = 1%nat
  /\ best_path st = [orig_path !!! 0%nat; orig_path !!! 1%nat]
  /\ result_traj st
     = replicate (S k) (orig_path !!! 0%nat) ++ [orig_path !!! 1%nat].
Proof.
  cbv zeta. induction k as [|k IH]; [done|].
  rewrite Nat.iter_succ.
  destruct IH as (Hs & Hl & He & Hb & Hr).
  set (st := Nat.iter (S k) _ _) in *.
  unfold loop_body. cbn [try_generators].
  cbn [curr_start last_end curr_end best_path result_traj].
  rewrite Hl, He, Hb, Hr. repeat split; try done.
  unfold commit. cbn [replicate app].
  change (orig_path !!! 0%nat :: replicate k (orig_path !!! 0%nat)
          ++ [orig_path !!! 1%nat])
    with (replicate (S k) (orig_path !!! 0%nat) ++ [orig_path !!! 1%nat]).
  rewrite removelast_last. apply replicate_app_cons.
Qed.

(** C3: for a path of length at least 2 with matching segment costs and an
    empty generator collection, the call does not return, whatever the
    number of loop iterations it is given: no success, and no output path
    equal to the original path. *)
Theorem ShortcutPath_without_generators_never_returns window fuel
    (shortcut_path : list PointType) :
  (2 <= length orig_path)%nat ->
  length orig_path = (length orig_path_costs + 1)%nat ->
  ShortcutPath cost_zero cost_add cost_sub orig_path orig_path_costs []
    granularity leq window fuel shortcut_path = None.
Proof.
  intros Hlen Hcosts. unfold ShortcutPath.
  apply Nat.eqb_eq in Hcosts as ->. cbn [negb].
  destruct (length orig_path <? 2)%nat eqn:Hlt; [apply Nat.ltb_lt in Hlt; lia|].
  rewrite while_loop_without_generators; [done|]. cbn. lia.
Qed.

Variable path_generators : list (PathGeneratorType PointType CostType).

(** C8: whenever the number of segment costs does not equal the path length
    minus one, [ShortcutPath] returns failure and the output path parameter
    is as it was passed in. *)
Theorem ShortcutPath_cost_count_mismatch window fuel
    (shortcut_path : list PointType) :
  Z.of_nat (length orig_path_costs) <> Z.of_nat (length orig_path) - 1 ->
  ShortcutPath cost_zero cost_add cost_sub orig_path orig_path_costs
    path_generators granularity leq window fuel shortcut_path
  = Some (false, shortcut_path).
Proof.
  intros Hne. unfold ShortcutPath.
  destruct (length orig_path =? length orig_path_costs + 1)%nat eqn:Heq;
    [|done].
  apply Nat.eqb_eq in Heq. lia.
Qed.

End WithTypes.

(** C4: on a path of length less than 2 with a matching cost series, that
    is a one-point path with no cost, the call returns success without
    writing the output parameter: it comes back as the caller passed it, not
    as the input path. *)
Theorem ShortcutPath_trivial_path_keeps_output {PointType CostType : Type}
    `{!Inhabited PointType} (cost_zero : CostType)
    (cost_add cost_sub : CostType -> CostType -> CostType) (p : PointType)
    (path_generators : list (PathGeneratorType PointType CostType))
    (granularity : nat) (leq : CostType -> CostType -> bool)
    (window fuel : nat) (shortcut_path : list PointType) :
  ShortcutPath cost_zero cost_add cost_sub [p] [] path_generators granularity
    leq window fuel shortcut_path
  = Some (true, shortcut_path).
Proof. done. Qed.

(** *** The theorems at concrete calls *)

(** With a generator that always improves, the window grows to the end of
    the path and the call returns. *)
Example ShortcutPath_direct_generator :
  ShortcutFixtures.ShortcutPath [10; 11; 12; 13]%nat [1; 1; 1]
    [ShortcutFixtures.direct] [] 0 1 3
  = Some (true, [10; 13]%nat)
  /\ ShortcutFixtures.ShortcutPath [10; 11]%nat [1] [ShortcutFixtures.direct]
       [] 0 1 1
     = Some (true, [10; 11]%nat).
Proof. by vm_compute. Qed.

(** Two points, one cost, no generator, a thousand iterations. *)
Lemma ShortcutPath_without_generators_witness :
  ShortcutFixtures.ShortcutPath [10; 11]%nat [1] [] [] 0 1 1000 = None.
Proof.
  unfold ShortcutFixtures.ShortcutPath.
  apply ShortcutPath_without_generators_never_returns; cbn [length]; lia.
Defined.

(** Three points with a single cost. *)
Lemma ShortcutPath_cost_count_mismatch_witness :
  ShortcutFixtures.ShortcutPath [10; 11; 12]%nat [1] [ShortcutFixtures.direct]
    [99]%nat 0 1 5
  = Some (false, [99]%nat).
Proof.
  unfold ShortcutFixtures.ShortcutPath.
  apply ShortcutPath_cost_count_mismatch. cbn [length]. lia.
Defined.

End ShortcutFacts.

(** ** More on [NormalizeAnglesIntoRange] and [InterpolatePath] *)

Module InterpMore.

Import Interp InterpOverloads.

Section WithAngleUtils.

Variable NormalizeAngle : float -> float -> float -> float.
Variable ShortestAngleDiff : float -> float -> float.
Variable Sign : float -> Z.
Variable ceil_int : float -> Z.

Implicit Types (angles start min_limits max_limits inc : list float).
Implicit Types (start_norm end_norm curr_cfg : list float).
Implicit Types (continuous_joints : list bool) (travel_dirs : list Z).
Implicit Types (path : list (list float)) (eps : float).

Local Abbreviation NormalizeAnglesIntoRange :=
  (NormalizeAnglesIntoRange NormalizeAngle).
Local Abbreviation InterpolatePath :=
  (InterpolatePath NormalizeAngle ShortestAngleDiff Sign ceil_int).
Local Abbreviation normalized := (normalized_angle NormalizeAngle).

(** *** The two loops of [NormalizeAnglesIntoRange] *)

Lemma limits_ordered_from_spec n i min_limits max_limits :
  limits_ordered_from n i min_limits max_limits = true
  <-> forall j, (i <= j < i + n)%nat ->
        gtb (min_limits !!! j) (max_limits !!! j) = false.
Proof.
  revert i. induction n as [|n IH]; intros i; cbn [limits_ordered_from].
  - split; [intros _ j ?; lia|done].
  - destruct (gtb (min_limits !!! i) _) eqn:Hi.
    + split; [done|]. intros H. rewrite H in Hi by lia. done.
    + rewrite IH. split; intros H j Hj.
      * destruct (decide (j = i)) as [->|]; [done|]. apply H. lia.
      * apply H. lia.
Qed.

Lemma normalize_from_success n i angles min_limits max_limits r :
  (i + n <= length angles)%nat ->
  normalize_from NormalizeAngle n i angles min_limits max_limits = (true, r) ->
  forall j,
    r !!! j = (if decide (i <= j < i + n)%nat
               then normalized angles min_limits j else angles !!! j)
    /\ ((i <= j < i + n)%nat ->
        outside_limits (r !!! j) (min_limits !!! j) (max_limits !!! j) = false).
Proof.
  revert i angles. induction n as [|n IH]; intros i angles Hlen.
  - cbn [normalize_from]. intros [= <-] j. case_decide; [lia|]. split; [done|lia].
  - cbn [normalize_from]. cbv zeta.
    fold (normalized angles min_limits i).
    set (angles' := <[i := normalized angles min_limits i]> angles).
    fold (outside_limits (angles' !!! i) (min_limits !!! i) (max_limits !!! i)).
    destruct (outside_limits (angles' !!! i) _ _) eqn:Hout; [done|].
    intros Hr j.
    assert (length angles' = length angles) as Hlen'
      by apply length_insert.
    destruct (IH (S i) angles' ltac:(lia) Hr j) as [Hj Hin].
    assert (angles' !!! i = normalized angles min_limits i) as Hi
      by (apply list_lookup_total_insert_eq; lia).
    destruct (decide (j = i)) as [->|Hne].
    + rewrite decide_False in Hj by lia. rewrite decide_True by lia.
      rewrite Hj. split; [done|]. intros _. by rewrite Hi in Hout |- *.
    + assert (angles' !!! j = angles !!! j) as Hj'
        by (by apply list_lookup_total_insert_ne).
      assert (normalized angles' min_limits j = normalized angles min_limits j)
        as Hn by (unfold normalized_angle; by rewrite Hj').
      split.
      * rewrite Hj. repeat case_decide; try lia; done.
      * intros ?. apply Hin. lia.
Qed.

Lemma normalize_from_complete n i angles min_limits max_limits :
  (i + n <= length angles)%nat ->
  (forall j, (i <= j < i + n)%nat ->
     outside_limits (normalized angles min_limits j) (min_limits !!! j)
       (max_limits !!! j) = false) ->
  (normalize_from NormalizeAngle n i angles min_limits max_limits).1 = true.
Proof.
  revert i angles. induction n as [|n IH]; intros i angles Hlen Hin; [done|].
  cbn [normalize_from]. cbv zeta.
  fold (normalized angles min_limits i).
  set (angles' := <[i := normalized angles min_limits i]> angles).
  fold (outside_limits (angles' !!! i) (min_limits !!! i) (max_limits !!! i)).
  assert (angles' !!! i = normalized angles min_limits i) as Hi
    by (apply list_lookup_total_insert_eq; lia).
  rewrite Hi, Hin by lia.
  apply IH; [subst angles'; rewrite length_insert; lia|].
  intros j Hj. rewrite <- (Hin j) by lia. unfold normalized_angle.
  subst angles'. by rewrite list_lookup_total_insert_ne by lia.
Qed.

Lemma normalize_from_failure n i angles min_limits max_limits r :
  (i + n <= length angles)%nat ->
  normalize_from NormalizeAngle n i angles min_limits max_limits = (false, r) ->
  exists k,
    (i <= k < i + n)%nat
    /\ outside_limits (normalized angles min_limits k) (min_limits !!! k)
         (max_limits !!! k) = true
    /\ (forall j, (i <= j < k)%nat ->
          outside_limits (normalized angles min_limits j) (min_limits !!! j)
            (max_limits !!! j) = false)
    /\ forall j,
         r !!! j = if decide (i <= j <= k)%nat
                   then normalized angles min_limits j else angles !!! j.
Proof.
  revert i angles. induction n as [|n IH]; intros i angles Hlen; [done|].
  cbn [normalize_from]. cbv zeta.
  fold (normalized angles min_limits i).
  set (angles' := <[i := normalized angles min_limits i]> angles).
  fold (outside_limits (angles' !!! i) (min_limits !!! i) (max_limits !!! i)).
  assert (angles' !!! i = normalized angles min_limits i) as Hi
    by (apply list_lookup_total_insert_eq; lia).
  assert (forall j, j <> i -> angles' !!! j = angles !!! j) as Hother
    by (intros j ?; by apply list_lookup_total_insert_ne).
  rewrite Hi.
  destruct (outside_limits (normalized angles min_limits i) _ _) eqn:Hout.
  - intros [= <-]. exists i. split; [lia|]. split; [done|].
    split; [intros; lia|]. intros j.
    destruct (decide (j = i)) as [->|Hne].
    + by rewrite decide_True by lia.
    + rewrite decide_False by lia. by apply Hother.
  - intros Hr.
    destruct (IH (S i) angles' ltac:(subst angles'; rewrite length_insert; lia)
                Hr) as (k & Hk & Hbad & Hgood & Hvals).
    assert (forall j, j <> i ->
              normalized angles' min_limits j = normalized angles min_limits j)
      as Hn by (intros j ?; unfold normalized_angle; by rewrite Hother).
    exists k. split; [lia|]. split; [by rewrite <- Hn by lia|]. split.
    + intros j Hj. destruct (decide (j = i)) as [->|Hne]; [done|].
      rewrite <- Hn by done. apply Hgood. lia.
    + intros j. rewrite Hvals.
      destruct (decide (j = i)) as [->|Hne].
      * rewrite decide_False by lia. rewrite decide_True by lia. done.
      * repeat case_decide; try lia; [by apply Hn|by apply Hother].
Qed.

(** *** [NormalizeAnglesIntoRange] *)

(** X1: [NormalizeAnglesIntoRange] returns true exactly when the two limit
    vectors have the size of [angles], no min limit is above its max limit,
    and every angle, once normalized, is neither below its min limit nor
    above its max limit. *)
Theorem NormalizeAnglesIntoRange_true_iff angles min_limits max_limits :
  (NormalizeAnglesIntoRange angles min_limits max_limits).1 = true
  <-> length min_limits = length angles
      /\ length max_limits = length angles
      /\ forall j, (j < length angles)%nat ->
           gtb (min_limits !!! j) (max_limits !!! j) = false
           /\ outside_limits (normalized angles min_limits j)
                (min_limits !!! j) (max_limits !!! j) = false.
Proof.
  unfold Interp.NormalizeAnglesIntoRange. cbv zeta.
  destruct (length min_limits =? length angles)%nat eqn:Hmin; cbn [negb orb];
    [|apply Nat.eqb_neq in Hmin; by intuition].
  destruct (length max_limits =? length angles)%nat eqn:Hmax; cbn [negb];
    [|apply Nat.eqb_neq in Hmax; by intuition].
  apply Nat.eqb_eq in Hmin, Hmax.
  destruct (limits_ordered_from _ 0 _ _) eqn:Hord; cbn [negb fst].
  - pose proof (proj1 (limits_ordered_from_spec _ _ _ _) Hord) as Hord'.
    split.
    + destruct (normalize_from _ _ _ _ _ _) as [ok r] eqn:Hr. cbn [fst].
      intros ->. split; [done|]. split; [done|]. intros j Hj.
      split; [apply Hord'; lia|].
      destruct (fun H => normalize_from_success _ _ _ _ _ _ H Hr j)
        as [Hval Hin]; [cbn; lia|].
      rewrite decide_True in Hval by lia. rewrite <- Hval. apply Hin. lia.
    + intros (_ & _ & H). apply normalize_from_complete; [cbn; lia|].
      intros j Hj. apply H. lia.
  - split; [done|]. intros (_ & _ & H).
    assert (limits_ordered_from (length angles) 0 min_limits max_limits = true)
      as Hord'; [|congruence].
    apply limits_ordered_from_spec. intros j Hj. apply H. lia.
Qed.

Lemma NormalizeAnglesIntoRange_true_values_aux angles min_limits max_limits r j :
  NormalizeAnglesIntoRange angles min_limits max_limits = (true, r) ->
  (j < length angles)%nat ->
  r !!! j = normalized angles min_limits j
  /\ PrimFloat.ltb (r !!! j) (min_limits !!! j) = false
  /\ gtb (r !!! j) (max_limits !!! j) = false.
Proof.
  unfold Interp.NormalizeAnglesIntoRange. cbv zeta.
  destruct (_ || _); [done|]. destruct (negb _); [done|].
  intros Hr Hj.
  destruct (fun H => normalize_from_success _ _ _ _ _ _ H Hr j)
    as [Hval Hin]; [cbn; lia|].
  rewrite decide_True in Hval by lia. split; [done|].
  specialize (Hin ltac:(lia)). unfold outside_limits in Hin.
  by apply orb_false_iff in Hin.
Qed.

(** X2: when [NormalizeAnglesIntoRange] returns true, [angles] has kept its
    size, every entry holds [NormalizeAngle(angles[i], min_limits[i],
    NormalizeAngle(min_limits[i], 0, 2 pi))], and no entry is below its min
    limit or above its max limit. *)
Theorem NormalizeAnglesIntoRange_true_values angles min_limits max_limits r :
  NormalizeAnglesIntoRange angles min_limits max_limits = (true, r) ->
  length r = length angles
  /\ forall j, (j < length angles)%nat ->
       r !!! j = normalized angles min_limits j
       /\ PrimFloat.ltb (r !!! j) (min_limits !!! j) = false
       /\ gtb (r !!! j) (max_limits !!! j) = false.
Proof.
  intros Hr. split.
  - by rewrite <- (InterpFacts.NormalizeAnglesIntoRange_length
                     NormalizeAngle angles
                    min_limits max_limits), Hr.
  - intros j Hj. by apply NormalizeAnglesIntoRange_true_values_aux.
Qed.

(** X3: when the sizes agree and the limits are ordered but
    [NormalizeAnglesIntoRange] returns false, [angles] comes back partly
    normalized: there is a first joint [k] whose normalized angle is outside
    its limits; the entries up to and including [k] hold their normalized
    angle and the entries after [k] are as they were passed in. *)
Theorem NormalizeAnglesIntoRange_out_of_range_prefix angles min_limits
    max_limits r :
  length min_limits = length angles ->
  length max_limits = length angles ->
  (forall j, (j < length angles)%nat ->
     gtb (min_limits !!! j) (max_limits !!! j) = false) ->
  NormalizeAnglesIntoRange angles min_limits max_limits = (false, r) ->
  exists k,
    (k < length angles)%nat
    /\ outside_limits (normalized angles min_limits k) (min_limits !!! k)
         (max_limits !!! k) = true
    /\ (forall j, (j < k)%nat ->
          outside_limits (normalized angles min_limits j) (min_limits !!! j)
            (max_limits !!! j) = false)
    /\ (forall j, (j <= k)%nat -> r !!! j = normalized angles min_limits j)
    /\ (forall j, (k < j)%nat -> r !!! j = angles !!! j).
Proof.
  intros Hmin Hmax Hord. unfold Interp.NormalizeAnglesIntoRange. cbv zeta.
  apply Nat.eqb_eq in Hmin as ->. apply Nat.eqb_eq in Hmax as ->.
  cbn [negb orb].
  rewrite (proj2 (limits_ordered_from_spec _ 0 _ _))
    by (intros j ?; apply Hord; lia).
  cbn [negb]. intros Hr.
  destruct (fun H => normalize_from_failure _ _ _ _ _ _ H Hr)
    as (k & Hk & Hbad & Hgood & Hvals); [cbn; lia|].
  exists k. split; [lia|]. split; [done|]. split; [intros; apply Hgood; lia|].
  split; intros j Hj; rewrite Hvals.
  - by rewrite decide_True by lia.
  - by rewrite decide_False by lia.
Qed.

(** X4: [NormalizeAnglesIntoRange] never changes the number of angles,
    whether it returns true or false. *)
Theorem NormalizeAnglesIntoRange_keeps_size angles min_limits max_limits :
  length (NormalizeAnglesIntoRange angles min_limits max_limits).2
  = length angles.
Proof.
  unfold Interp.NormalizeAnglesIntoRange. cbv zeta.
  destruct (_ || _); [done|]. destruct (negb _); [done|].
  generalize 0%nat at 1. generalize (length angles) at 1. intros n.
  revert angles. induction n as [|n IH]; intros angles i; [done|].
  cbn [normalize_from]. cbv zeta.
  destruct (_ || _); cbn [snd]; [|rewrite IH]; apply length_insert.
Qed.

(** *** [InterpolatePath] *)

Lemma step_joint_length end_norm min_limits max_limits inc travel_dirs i
    curr_cfg :
  length (step_joint ShortestAngleDiff end_norm min_limits max_limits inc
            travel_dirs i curr_cfg)
  = length curr_cfg.
Proof.
  unfold step_joint. cbv zeta.
  repeat match goal with
         | |- context [if ?b then _ else _] => destruct b
         end;
    by rewrite ?length_insert.
Qed.

Lemma step_joints_from_length n i end_norm min_limits max_limits inc
    travel_dirs curr_cfg :
  length (step_joints_from ShortestAngleDiff n i end_norm min_limits max_limits
            inc travel_dirs curr_cfg)
  = length curr_cfg.
Proof.
  revert i curr_cfg. induction n as [|n IH]; intros i cfg; [done|].
  cbn [step_joints_from]. by rewrite IH, step_joint_length.
Qed.

Lemma interpolate_loop_sizes c dim end_norm min_limits max_limits inc
    travel_dirs curr_cfg path (d : nat) :
  length curr_cfg = d ->
  Forall (fun cfg => length cfg = d) path ->
  Forall (fun cfg => length cfg = d)
    (interpolate_loop ShortestAngleDiff c dim end_norm min_limits max_limits
       inc travel_dirs curr_cfg path).
Proof.
  revert curr_cfg path. induction c as [|c IH]; intros cfg path Hcfg Hpath;
    [done|].
  cbn [interpolate_loop]. cbv zeta.
  assert (length (step_joints_from ShortestAngleDiff dim 0 end_norm min_limits
                    max_limits inc travel_dirs cfg) = d) as Hstep
    by (by rewrite step_joints_from_length).
  apply IH; [done|]. apply Forall_app. split; [done|]. by apply Forall_singleton.
Qed.

Lemma InterpolatePath_returns_true start (end_ : list float) min_limits
    max_limits inc continuous_joints eps path0 :
  (InterpolatePath start end_ min_limits max_limits inc continuous_joints eps
     path0).1 = true
  <-> (length end_ = length start /\ length min_limits = length start
       /\ length max_limits = length start /\ length inc = length start
       /\ length continuous_joints = length start)
      /\ (NormalizeAnglesIntoRange start min_limits max_limits).1 = true
      /\ (NormalizeAnglesIntoRange end_ min_limits max_limits).1 = true.
Proof.
  rewrite <- InterpFacts.same_dimension_true.
  unfold Interp.InterpolatePath. cbv zeta.
  destruct (same_dimension _ _ _ _ _ _); cbn [negb fst]; [|by intuition].
  destruct (NormalizeAnglesIntoRange start _ _) as [[] ?]; cbn [fst];
    [|by intuition].
  destruct (NormalizeAnglesIntoRange end_ _ _) as [[] ?]; cbn [fst];
    by intuition.
Qed.

(** X6: on success every configuration of the path has as many joints as
    [start]. *)
Theorem InterpolatePath_configurations_sized start (end_ : list float)
    min_limits max_limits inc continuous_joints eps path0 path :
  InterpolatePath start end_ min_limits max_limits inc continuous_joints eps
    path0 = (true, path) ->
  Forall (fun cfg => length cfg = length start) path.
Proof.
  intros (start_norm & end_norm & _ & Hs & _ & ->)
    %InterpFacts.InterpolatePath_success.
  assert (length start_norm = length start) as Hlen.
  { by rewrite <- (InterpFacts.NormalizeAnglesIntoRange_length NormalizeAngle
                     start min_limits max_limits), Hs. }
  apply interpolate_loop_sizes; [done|]. by apply Forall_singleton.
Qed.

(** X7: on success the path is not empty, its first configuration is the
    normalized start, and no joint of that configuration is below its min
    limit or above its max limit. *)
Theorem InterpolatePath_first_configuration start (end_ : list float)
    min_limits max_limits inc continuous_joints eps path0 path :
  InterpolatePath start end_ min_limits max_limits inc continuous_joints eps
    path0 = (true, path) ->
  exists more,
    path = (NormalizeAnglesIntoRange start min_limits max_limits).2 :: more
    /\ forall j, (j < length start)%nat ->
         outside_limits
           ((NormalizeAnglesIntoRange start min_limits max_limits).2 !!! j)
           (min_limits !!! j) (max_limits !!! j) = false.
Proof.
  intros (start_norm & end_norm & _ & Hs & _ & ->)
    %InterpFacts.InterpolatePath_success.
  rewrite Hs. cbn [snd].
  edestruct (InterpFacts.interpolate_loop_prefix ShortestAngleDiff)
    as [more ->].
  exists more. split; [done|]. intros j Hj.
  destruct (NormalizeAnglesIntoRange_true_values_aux _ _ _ _ j Hs Hj)
    as (_ & Hlo & Hhi).
  unfold outside_limits. by rewrite Hlo, Hhi.
Qed.

(** X5: [InterpolatePath] returns true exactly when the six vectors share
    the size of [start] and both [start] and [end] pass
    [NormalizeAnglesIntoRange]; the increments, the flags' values, epsilon and
    the prior contents of [path] play no part in it. *)
Theorem InterpolatePath_true_iff start (end_ : list float) min_limits
    max_limits inc continuous_joints eps path0 :
  (InterpolatePath start end_ min_limits max_limits inc continuous_joints eps
     path0).1 = true
  <-> (length end_ = length start /\ length min_limits = length start
       /\ length max_limits = length start /\ length inc = length start
       /\ length continuous_joints = length start)
      /\ (NormalizeAnglesIntoRange start min_limits max_limits).1 = true
      /\ (NormalizeAnglesIntoRange end_ min_limits max_limits).1 = true.
Proof. apply InterpolatePath_returns_true. Qed.

(** X8: the continuous flags never change the number of points: two
    successful calls that differ only in the flags (and in what [path] held
    before) produce paths of the same length. *)
Theorem InterpolatePath_point_count_ignores_flags start (end_ : list float)
    min_limits max_limits inc continuous_joints continuous_joints' eps path0
    path0' path path' :
  InterpolatePath start end_ min_limits max_limits inc continuous_joints eps
    path0 = (true, path) ->
  InterpolatePath start end_ min_limits max_limits inc continuous_joints' eps
    path0' = (true, path') ->
  length path = length path'.
Proof.
  intros (sn & en & _ & Hs & He & ->)%InterpFacts.InterpolatePath_success
         (sn' & en' & _ & Hs' & He' & ->)%InterpFacts.InterpolatePath_success.
  assert (sn' = sn) as -> by congruence.
  assert (en' = en) as -> by congruence.
  by rewrite !InterpFacts.interpolate_loop_length.
Qed.

Lemma compute_travel_dirs_ext dim start_norm end_norm min_limits max_limits
    continuous_joints continuous_joints' :
  (forall j, (j < dim)%nat ->
     travel_dir ShortestAngleDiff Sign start_norm end_norm min_limits
       max_limits continuous_joints j
     = travel_dir ShortestAngleDiff Sign start_norm end_norm min_limits
         max_limits continuous_joints' j) ->
  compute_travel_dirs ShortestAngleDiff Sign dim start_norm end_norm min_limits
    max_limits continuous_joints
  = compute_travel_dirs ShortestAngleDiff Sign dim start_norm end_norm
      min_limits max_limits continuous_joints'.
Proof.
  intros Hext. apply list_eq. intros j.
  assert (forall c,
            length (compute_travel_dirs ShortestAngleDiff Sign dim start_norm
                      end_norm min_limits max_limits c) = dim) as Hlen.
  { intros c. unfold compute_travel_dirs.
    by rewrite InterpFacts.travel_dirs_from_length, length_replicate. }
  destruct (decide (j < dim)%nat) as [Hj|Hj].
  - rewrite !list_lookup_lookup_total_lt by (rewrite Hlen; lia).
    by rewrite !InterpFacts.compute_travel_dirs_lookup, Hext by done.
  - by rewrite !lookup_ge_None_2 by (rewrite Hlen; lia).
Qed.

Lemma InterpolatePath_flags_ext start (end_ : list float) min_limits
    max_limits inc continuous_joints continuous_joints' eps path0 path0' :
  length continuous_joints = length continuous_joints' ->
  (forall j, (j < length start)%nat ->
     InterpSpec.leaves_limits ShortestAngleDiff
       (NormalizeAnglesIntoRange start min_limits max_limits).2
       (NormalizeAnglesIntoRange end_ min_limits max_limits).2
       min_limits max_limits j = false) ->
  InterpolatePath start end_ min_limits max_limits inc continuous_joints eps
    path0
  = InterpolatePath start end_ min_limits max_limits inc continuous_joints' eps
      path0'.
Proof.
  intros Hlen Hin. unfold Interp.InterpolatePath, same_dimension. cbv zeta.
  rewrite <- Hlen.
  destruct (negb _); [done|].
  destruct (NormalizeAnglesIntoRange start _ _) as [[] sn]; [|done].
  destruct (NormalizeAnglesIntoRange end_ _ _) as [[] en]; [|done].
  cbn [snd] in Hin. do 2 f_equal.
  apply compute_travel_dirs_ext. intros j Hj.
  specialize (Hin j Hj).
  unfold InterpSpec.leaves_limits, InterpSpec.short_arc in Hin.
  unfold travel_dir, short_arc_leaves_limits. cbv zeta. rewrite Hin.
  by do 2 destruct (_ !!! j : bool).
Qed.

(** X9: the continuous flags matter only for joints whose short arc leaves
    the limits: when no joint's short arc from the normalized start to the
    normalized end leaves its limits, two calls that differ only in the
    values of the flags return the same result and the same path. *)
Theorem InterpolatePath_flags_irrelevant_inside_limits start
    (end_ : list float) min_limits max_limits inc continuous_joints
    continuous_joints' eps path0 path0' :
  length continuous_joints = length continuous_joints' ->
  (forall j, (j < length start)%nat ->
     InterpSpec.leaves_limits ShortestAngleDiff
       (NormalizeAnglesIntoRange start min_limits max_limits).2
       (NormalizeAnglesIntoRange end_ min_limits max_limits).2
       min_limits max_limits j = false) ->
  InterpolatePath start end_ min_limits max_limits inc continuous_joints eps
    path0
  = InterpolatePath start end_ min_limits max_limits inc continuous_joints' eps
      path0'.
Proof. apply InterpolatePath_flags_ext. Qed.

(** X10: the overload without flags and epsilon (every joint bounded,
    epsilon 1e-6) returns true exactly when the five vectors share the size
    of [start] and both [start] and [end] pass [NormalizeAnglesIntoRange]:
    the flags it builds never fail the size check. *)
Theorem InterpolatePath_bounded_true_iff start (end_ : list float) min_limits
    max_limits inc path0 :
  (InterpolatePath_bounded NormalizeAngle ShortestAngleDiff Sign ceil_int start
     end_ min_limits max_limits inc path0).1 = true
  <-> (length end_ = length start /\ length min_limits = length start
       /\ length max_limits = length start /\ length inc = length start)
      /\ (NormalizeAnglesIntoRange start min_limits max_limits).1 = true
      /\ (NormalizeAnglesIntoRange end_ min_limits max_limits).1 = true.
Proof.
  unfold InterpolatePath_bounded. cbv zeta.
  rewrite InterpolatePath_returns_true, length_replicate. by intuition.
Qed.

(** X22: the overloads agree where bounded and continuous joints do: when
    no joint's short arc leaves its limits and there is one flag per joint,
    the overload without flags returns what the full call returns for these
    flags and the same epsilon, and the overload without flags and epsilon
    returns what the overload without epsilon returns for these flags. *)
Theorem InterpolatePath_overloads_agree_inside_limits start
    (end_ : list float) min_limits max_limits inc continuous_joints eps path0
    path0' :
  length continuous_joints = length start ->
  (forall j, (j < length start)%nat ->
     InterpSpec.leaves_limits ShortestAngleDiff
       (NormalizeAnglesIntoRange start min_limits max_limits).2
       (NormalizeAnglesIntoRange end_ min_limits max_limits).2
       min_limits max_limits j = false) ->
  InterpolatePath_bounded_eps NormalizeAngle ShortestAngleDiff Sign ceil_int
    start end_ min_limits max_limits inc eps path0
  = InterpolatePath start end_ min_limits max_limits inc continuous_joints eps
      path0'
  /\ InterpolatePath_bounded NormalizeAngle ShortestAngleDiff Sign ceil_int
       start end_ min_limits max_limits inc path0
     = InterpolatePath_flags NormalizeAngle ShortestAngleDiff Sign ceil_int
         start end_ min_limits max_limits inc continuous_joints path0'.
Proof.
  intros Hlen Hin.
  unfold InterpolatePath_bounded_eps, InterpolatePath_bounded,
    InterpolatePath_flags.
  cbv zeta.
  split; apply InterpolatePath_flags_ext; try done;
    by rewrite length_replicate.
Qed.

End WithAngleUtils.

(** *** The theorems at concrete calls *)

Section OnDoubles.

Import AngleModel.
Local Open Scope float_scope.

(** Seven radians is a full turn above its place in [-pi, pi]. *)
Lemma NormalizeAnglesIntoRange_true_values_witness :
  NormalizeAnglesIntoRange [7; 0.5] [- M_PI; -1] [M_PI; 1]
  = (true, [7 - TWO_PI; 0.5])
  /\ (length [7 - TWO_PI; 0.5] = 2%nat
      /\ forall j, (j < 2)%nat ->
           [7 - TWO_PI; 0.5] !!! j
           = normalized_angle NormalizeAngle [7; 0.5] [- M_PI; -1] j
           /\ PrimFloat.ltb ([7 - TWO_PI; 0.5] !!! j) ([- M_PI; -1] !!! j)
              = false
           /\ gtb ([7 - TWO_PI; 0.5] !!! j) ([M_PI; 1] !!! j) = false).
Proof.
  split; [by vm_compute|].
  apply (InterpMore.NormalizeAnglesIntoRange_true_values NormalizeAngle
           [7; 0.5] [- M_PI; -1] [M_PI; 1] [7 - TWO_PI; 0.5]).
  by vm_compute.
Defined.

(** The second of three angles is outside its limits: the first comes back
    normalized, the third untouched. *)
Lemma NormalizeAnglesIntoRange_out_of_range_prefix_witness :
  NormalizeAnglesIntoRange [7; 2; 7] [- M_PI; - M_PI; - M_PI] [M_PI; 1; M_PI]
  = (false, [7 - TWO_PI; 2; 7])
  /\ exists k,
       (k < 3)%nat
       /\ outside_limits
            (normalized_angle NormalizeAngle [7; 2; 7]
               [- M_PI; - M_PI; - M_PI] k)
            ([- M_PI; - M_PI; - M_PI] !!! k) ([M_PI; 1; M_PI] !!! k) = true
       /\ (forall j, (j < k)%nat ->
             outside_limits
               (normalized_angle NormalizeAngle [7; 2; 7]
                  [- M_PI; - M_PI; - M_PI] j)
               ([- M_PI; - M_PI; - M_PI] !!! j) ([M_PI; 1; M_PI] !!! j)
             = false)
       /\ (forall j, (j <= k)%nat ->
             [7 - TWO_PI; 2; 7] !!! j
             = normalized_angle NormalizeAngle [7; 2; 7]
                 [- M_PI; - M_PI; - M_PI] j)
       /\ (forall j, (k < j)%nat -> [7 - TWO_PI; 2; 7] !!! j = [7; 2; 7] !!! j).
Proof.
  split; [by vm_compute|].
  apply (InterpMore.NormalizeAnglesIntoRange_out_of_range_prefix
           NormalizeAngle [7; 2; 7] [- M_PI; - M_PI; - M_PI] [M_PI; 1; M_PI]
           [7 - TWO_PI; 2; 7]);
    [done|done| |by vm_compute].
  intros j Hj. do 3 (destruct j as [|j]; [by vm_compute|]). cbn in Hj. lia.
Defined.

(** Two joints stepped from (0, 0) to (1, 0.25). *)
Lemma InterpolatePath_configurations_sized_witness :
  let call :=
    InterpolatePath [0; 0] [1; 0.25] [- M_PI; - M_PI] [M_PI; M_PI]
      [0.5; 0.5] [false; true] default_eps [] in
  call.1 = true
  /\ Forall (fun cfg => length cfg = 2%nat) call.2.
Proof.
  cbv zeta. split; [by vm_compute|].
  apply (InterpMore.InterpolatePath_configurations_sized NormalizeAngle
           ShortestAngleDiff Sign ceil_to_int [0; 0] [1; 0.25]
           [- M_PI; - M_PI] [M_PI; M_PI] [0.5; 0.5] [false; true] default_eps
           []).
  by vm_compute.
Defined.

(** A start of seven radians: the path begins a full turn lower. *)
Lemma InterpolatePath_first_configuration_witness :
  let call :=
    InterpolatePath [7] [1] [- M_PI] [M_PI] [0.5] [false] default_eps [] in
  call.1 = true
  /\ exists more,
       call.2 = (NormalizeAnglesIntoRange [7] [- M_PI] [M_PI]).2 :: more
       /\ forall j, (j < 1)%nat ->
            outside_limits
              ((NormalizeAnglesIntoRange [7] [- M_PI] [M_PI]).2 !!! j)
              ([- M_PI] !!! j) ([M_PI] !!! j) = false.
Proof.
  cbv zeta. split; [by vm_compute|].
  apply (InterpMore.InterpolatePath_first_configuration NormalizeAngle
           ShortestAngleDiff Sign ceil_to_int [7] [1] [- M_PI] [M_PI] [0.5]
           [false] default_eps []).
  by vm_compute.
Defined.

(** The short arc from -2.5 to 2.5 leaves the limits [-pi, 3]: bounded and
    continuous differ in their points, not in how many there are. *)
Lemma InterpolatePath_point_count_ignores_flags_witness :
  let bounded :=
    InterpolatePath [-2.5] [2.5] [- M_PI] [3] [0.5] [false] default_eps [] in
  let continuous :=
    InterpolatePath [-2.5] [2.5] [- M_PI] [3] [0.5] [true] default_eps [] in
  bounded.1 = true /\ continuous.1 = true
  /\ bounded.2 !! 1%nat = Some [-2]
  /\ continuous.2 !! 1%nat = Some [-3]
  /\ length bounded.2 = length continuous.2.
Proof.
  cbv zeta. do 4 (split; [by vm_compute|]).
  apply (InterpMore.InterpolatePath_point_count_ignores_flags NormalizeAngle
           ShortestAngleDiff Sign ceil_to_int [-2.5] [2.5] [- M_PI] [3] [0.5]
           [false] [true] default_eps [] []);
    by vm_compute.
Defined.

(** From 0 to 1 inside [-pi, pi] the flag makes no difference. *)
Lemma InterpolatePath_flags_irrelevant_inside_limits_witness :
  InterpolatePath [0] [1] [- M_PI] [M_PI] [0.25] [false] default_eps []
  = InterpolatePath [0] [1] [- M_PI] [M_PI] [0.25] [true] default_eps [[9]].
Proof.
  apply (InterpMore.InterpolatePath_flags_irrelevant_inside_limits
           NormalizeAngle ShortestAngleDiff Sign ceil_to_int [0] [1] [- M_PI]
           [M_PI] [0.25] [false] [true] default_eps [] [[9]]);
    [done|].
  intros j Hj. destruct j as [|j]; [by vm_compute|]. cbn in Hj. lia.
Defined.

(** From 0 to 1 inside [-pi, pi], with and without flags and epsilon. *)
Lemma InterpolatePath_overloads_agree_inside_limits_witness :
  InterpolatePath_bounded_eps NormalizeAngle ShortestAngleDiff Sign ceil_to_int
    [0] [1] [- M_PI] [M_PI] [0.25] default_eps []
  = InterpolatePath [0] [1] [- M_PI] [M_PI] [0.25] [true] default_eps []
  /\ InterpolatePath_bounded NormalizeAngle ShortestAngleDiff Sign ceil_to_int
       [0] [1] [- M_PI] [M_PI] [0.25] []
     = InterpolatePath_flags NormalizeAngle ShortestAngleDiff Sign ceil_to_int
         [0] [1] [- M_PI] [M_PI] [0.25] [true] [].
Proof.
  apply (InterpMore.InterpolatePath_overloads_agree_inside_limits
           NormalizeAngle ShortestAngleDiff Sign ceil_to_int [0] [1] [- M_PI]
           [M_PI] [0.25] [true] default_eps [] []);
    [done|].
  intros j Hj. destruct j as [|j]; [by vm_compute|]. cbn in Hj. lia.
Defined.

End OnDoubles.

End InterpMore.

(** ** More on [ShortcutPath] *)

Module ShortcutMore.

Import Shortcut ShortcutStates.

Section WithTypes.

Context {PointType CostType : Type} `{!Inhabited PointType}.
Variable cost_zero : CostType.
Variables cost_add cost_sub : CostType -> CostType -> CostType.
Variable orig_path : list PointType.
Variable orig_path_costs : list CostType.
Variable path_generators : list (PathGeneratorType PointType CostType).
Variable granularity : nat.
Variable leq : CostType -> CostType -> bool.

#[local] Hint Extern 0 (Inhabited CostType) =>
  exact (cost_inhabited cost_zero) : typeclass_instances.

Local Abbreviation accum :=
  (accum_point_costs cost_zero cost_add orig_path orig_path_costs).
Local Abbreviation body :=
  (loop_body cost_zero cost_add cost_sub orig_path orig_path_costs
     path_generators granularity leq).
Local Abbreviation while :=
  (while_loop cost_zero cost_add cost_sub orig_path orig_path_costs
     path_generators granularity leq).
Local Abbreviation init :=
  (initial_state cost_zero cost_add cost_sub orig_path orig_path_costs).
Local Abbreviation improved :=
  (cost_improved cost_zero cost_add cost_sub orig_path orig_path_costs
     path_generators leq).
Local Abbreviation proposed :=
  (proposals cost_zero cost_add cost_sub orig_path orig_path_costs
     path_generators leq).
Local Abbreviation in_step := (indices_in_step orig_path).

(** *** The accumulated costs *)

Lemma accumulate_from_spec n i (acc : list CostType) :
  (1 <= i)%nat -> (i + n <= length acc)%nat ->
  let r := accumulate_from cost_zero cost_add orig_path_costs n i acc in
  length r = length acc
  /\ (forall j, (j < i)%nat -> r !!! j = acc !!! j)
  /\ (forall j, (i <= j < i + n)%nat ->
        r !!! j = cost_add (r !!! (j - 1)%nat) (orig_path_costs !!! (j - 1)%nat)).
Proof.
  cbv zeta. revert i acc. induction n as [|n IH]; intros i acc Hi Hlen.
  - cbn [accumulate_from]. split; [done|]. split; [done|]. intros; lia.
  - cbn [accumulate_from].
    set (acc' := <[i := cost_add (acc !!! (i - 1)%nat)
                            (orig_path_costs !!! (i - 1)%nat)]> acc).
    assert (length acc' = length acc) as Hlen' by apply length_insert.
    destruct (IH (S i) acc' ltac:(lia) ltac:(lia)) as (Hl & Hlow & Hrec).
    split; [congruence|]. split.
    + intros j Hj. rewrite Hlow by lia.
      subst acc'. by rewrite list_lookup_total_insert_ne by lia.
    + intros j Hj. destruct (decide (j = i)) as [->|Hne].
      * rewrite !Hlow by lia. subst acc'.
        rewrite list_lookup_total_insert_eq by lia.
        by rewrite list_lookup_total_insert_ne by lia.
      * apply Hrec. lia.
Qed.

Lemma accum_point_costs_length : length accum = length orig_path.
Proof.
  unfold accum_point_costs.
  destruct (length orig_path) as [|n] eqn:Hn; [done|].
  destruct (accumulate_from_spec (S n - 1) 1
              (<[0%nat := cost_zero]> (replicate (S n) cost_zero)))
    as (Hl & _); rewrite ?length_insert, ?length_replicate; try lia.
  by rewrite Hl, length_insert, length_replicate.
Qed.

(** X11: the accumulated costs are the prefix sums of the segment costs:
    one entry per point, the first one zero, and each later one the entry
    before it plus the cost of the segment that leads to its point. *)
Theorem accum_point_costs_prefix_sums :
  let accum_point_costs :=
    accum_point_costs cost_zero cost_add orig_path orig_path_costs in
  length accum_point_costs = length orig_path
  /\ (forall p rest, orig_path = p :: rest ->
        accum_point_costs !!! 0%nat = cost_zero)
  /\ (forall i, (i + 1 < length orig_path)%nat ->
        accum_point_costs !!! (i + 1)%nat
        = cost_add (accum_point_costs !!! i) (orig_path_costs !!! i)).
Proof.
  cbv zeta.
  unfold accum_point_costs.
  set (acc0 := <[0%nat := cost_zero]> (replicate (length orig_path) cost_zero)).
  assert (length acc0 = length orig_path) as Hlen0
    by (subst acc0; by rewrite length_insert, length_replicate).
  destruct (length orig_path) as [|n] eqn:Hn.
  - cbn [accumulate_from Nat.sub]. split; [done|]. split; [|intros; lia].
    intros p rest ->. done.
  - destruct (accumulate_from_spec (S n - 1) 1 acc0 ltac:(lia) ltac:(lia))
      as (Hl & Hlow & Hrec).
    split; [congruence|]. split.
    + intros _ _ _. rewrite Hlow by lia. subst acc0.
      apply list_lookup_total_insert_eq. rewrite length_replicate. lia.
    + intros i Hi. rewrite Hrec by lia. by replace (i + 1 - 1)%nat with i by lia.
Qed.

(** *** The generators *)

Local Abbreviation try a b e flag bpath bcost :=
  (try_generators cost_zero cost_add cost_sub orig_path orig_path_costs leq
     path_generators a b e flag bpath bcost).

(** The reference a proposal is compared with: the best cost so far plus
    the original cost of the last segment of the window. *)
Local Abbreviation reference bcost e :=
  (cost_sub (cost_add bcost (accum !!! (e : nat))) (accum !!! (e - 1)%nat)).

Lemma try_generators_flag gens a b e flag bpath bcost :
  flag = true ->
  (try_generators cost_zero cost_add cost_sub orig_path orig_path_costs leq gens
     a b e flag bpath bcost).1.1 = true.
Proof.
  revert flag bpath bcost. induction gens as [|it gens IH];
    intros flag bpath bcost Hflag; [done|].
  cbn [try_generators].
  destruct (generate_path it a b) as [[path cost]|]; [|by apply IH].
  destruct (leq cost _); by apply IH.
Qed.

(** Without an acceptable proposal the best path and cost stay as they
    were. *)
Lemma try_generators_unimproved gens a b e bpath bcost :
  (try_generators cost_zero cost_add cost_sub orig_path orig_path_costs leq gens
     a b e false bpath bcost).1.1 = false ->
  try_generators cost_zero cost_add cost_sub orig_path orig_path_costs leq gens
    a b e false bpath bcost = (false, bpath, bcost).
Proof.
  induction gens as [|it gens IH]; [done|].
  cbn [try_generators].
  destruct (generate_path it a b) as [[path cost]|]; [|done].
  destruct (leq cost _); [|done].
  by rewrite try_generators_flag.
Qed.

(** An improved best path is the proposal of one of the generators. *)
Lemma try_generators_improved gens a b e flag bpath bcost path cost :
  try_generators cost_zero cost_add cost_sub orig_path orig_path_costs leq gens
    a b e flag bpath bcost = (true, path, cost) ->
  (flag = true /\ path = bpath /\ cost = bcost)
  \/ exists it, it ∈ gens /\ generate_path it a b = Some (path, cost).
Proof.
  revert flag bpath bcost. induction gens as [|it gens IH];
    intros flag bpath bcost; cbn [try_generators].
  - intros [= -> -> ->]. by left.
  - destruct (generate_path it a b) as [[path' cost']|] eqn:Hgen.
    + destruct (leq cost' _).
      * intros [(_ & -> & ->)|(it' & ? & ?)]%IH; right.
        -- exists it. split; [by left|done].
        -- exists it'. split; [by right|done].
      * intros [?|(it' & ? & ?)]%IH; [by left|right].
        exists it'. split; [by right|done].
    + intros [?|(it' & ? & ?)]%IH; [by left|right].
      exists it'. split; [by right|done].
Qed.

(** X12: an iteration finds no improvement exactly when every proposal a
    generator makes for the window's end points is refused by the
    comparator against the best cost so far plus the original cost of the
    window's last segment. *)
Theorem try_generators_unimproved_iff a b e bpath bcost :
  let accum_point_costs :=
    accum_point_costs cost_zero cost_add orig_path orig_path_costs in
  (try_generators cost_zero cost_add cost_sub orig_path orig_path_costs leq
     path_generators a b e false bpath bcost).1.1 = false
  <-> forall it path cost,
        it ∈ path_generators ->
        generate_path it a b = Some (path, cost) ->
        leq cost
          (cost_sub (cost_add bcost (accum_point_costs !!! e))
             (accum_point_costs !!! (e - 1)%nat))
        = false.
Proof.
  cbv zeta.
  induction path_generators as [|it gens IH]; cbn [try_generators].
  - split; [|done]. intros _ it path cost Hin. by apply elem_of_nil in Hin.
  - destruct (generate_path it a b) as [[path cost]|] eqn:Hgen.
    + destruct (leq cost _) eqn:Hleq.
      * rewrite try_generators_flag by done. split; [done|].
        intros H. specialize (H it path cost ltac:(by left) Hgen). congruence.
      * rewrite IH. split.
        -- intros H it' path' cost' [->|Hin]%elem_of_cons Hgen'.
           ++ congruence.
           ++ by eapply H.
        -- intros H it' path' cost' Hin. apply H. by right.
    + rewrite IH. split.
      * intros H it' path' cost' [->|Hin]%elem_of_cons Hgen'.
        -- congruence.
        -- by eapply H.
      * intros H it' path' cost' Hin. apply H. by right.
Qed.

(** *** The indices of the window *)

Lemma initial_state_in_step : (2 <= length orig_path)%nat -> in_step init.
Proof. intros Hlen. unfold indices_in_step. cbn. lia. Qed.

Lemma loop_body_in_step (st : state PointType CostType) :
  in_step st -> curr_end st <> length orig_path -> in_step (body st).
Proof.
  intros (Hce & Hei & Hle & Hsi & Hcs) Hrun.
  unfold indices_in_step, loop_body.
  destruct (try_generators _ _ _ _ _ _ _ _ _ _ _ _ _) as [[[] bpath] bcost].
  - destruct (_ =? 1)%nat eqn:H1; [cbn; lia|].
    apply Nat.eqb_neq in H1.
    destruct (_ <? granularity)%nat eqn:Hg; cbn.
    + lia.
    + apply Nat.ltb_ge in Hg. lia.
  - cbn. lia.
Qed.

(** X13: while the loop runs, the integer indices mirror the iterators and
    every element the body reads is inside the path: from a path of at
    least two points on, the start state is in step, the body keeps a state
    in step, and in a state in step that has not reached the end of the path
    [curr_start < curr_end < size]. *)
Theorem window_indices_in_step :
  (2 <= length orig_path)%nat ->
  in_step init
  /\ forall st : state PointType CostType,
       in_step st -> curr_end st <> length orig_path ->
       in_step (body st)
       /\ (curr_start st < curr_end st < length orig_path)%nat
       /\ (start_index st < end_index st < length accum)%nat.
Proof.
  intros Hlen. split; [by apply initial_state_in_step|].
  intros st Hst Hrun. split; [by apply loop_body_in_step|].
  rewrite accum_point_costs_length.
  destruct Hst as (Hce & Hei & Hle & Hsi & Hcs). lia.
Qed.

(** *** Iterations without improvement *)

Local Abbreviation committed :=
  (just_committed cost_zero cost_add cost_sub orig_path orig_path_costs).

Lemma loop_body_unimproved (st : state PointType CostType) :
  improved st = false ->
  body st
  = State (last_end st) (last_end st) (curr_end st) (end_index st - 1)%nat
      (end_index st) [orig_path !!! last_end st; orig_path !!! curr_end st]
      (cost_sub (accum !!! end_index st) (accum !!! (end_index st - 1)%nat))
      (commit (result_traj st) (best_path st)).
Proof.
  unfold cost_improved, proposals, loop_body. intros Hun.
  by rewrite (try_generators_unimproved _ _ _ _ _ _ Hun).
Qed.

Lemma loop_body_unimproved_committed (st : state PointType CostType) :
  improved st = false -> committed (body st) /\ curr_end (body st) = curr_end st.
Proof. intros ->%loop_body_unimproved. done. Qed.

Lemma committed_unimproved_again (st : state PointType CostType) :
  committed st -> improved st = false ->
  committed (body st) /\ improved (body st) = false
  /\ curr_end (body st) = curr_end st.
Proof.
  intros (Hcs & Hsi & Hbp & Hbc) Hun.
  destruct (loop_body_unimproved_committed st Hun) as [Hc He].
  split; [done|]. split; [|done].
  rewrite <- Hun, (loop_body_unimproved st Hun).
  unfold cost_improved, proposals. cbn.
  by rewrite <- Hcs, <- Hsi, <- Hbp, <- Hbc.
Qed.

Lemma while_loop_stuck fuel (st : state PointType CostType) :
  curr_end st <> length orig_path -> committed st -> improved st = false ->
  while fuel st = None.
Proof.
  revert st. induction fuel as [|fuel IH]; intros st Hrun Hc Hun;
    cbn [while_loop]; apply Nat.eqb_neq in Hrun as Hb; rewrite Hb; [done|].
  destruct (committed_unimproved_again st Hc Hun) as (Hc' & Hun' & He).
  apply IH; [congruence|done|done].
Qed.

(** X14: once an iteration has committed, the next one must find an
    improvement: if two iterations in a row find none, the loop never
    ends, whatever the number of iterations it is given. *)
Theorem while_loop_two_commits_never_ends (st : state PointType CostType) fuel :
  curr_end st <> length orig_path ->
  improved st = false ->
  improved (body st) = false ->
  while fuel st = None.
Proof.
  intros Hrun Hun Hun'. destruct fuel as [|fuel]; cbn [while_loop];
    apply Nat.eqb_neq in Hrun as Hb; rewrite Hb; [done|].
  destruct (loop_body_unimproved_committed st Hun) as [Hc He].
  apply while_loop_stuck; [congruence|done|done].
Qed.

Lemma initial_state_committed : committed init.
Proof. done. Qed.

(** X15: on a path of at least two points with matching costs, if no
    generator makes an acceptable proposal for the first segment (from the
    first point to the second), [ShortcutPath] never returns, whatever the
    number of iterations it is given. *)
Theorem ShortcutPath_first_segment_unimproved window fuel
    (shortcut_path : list PointType) :
  (2 <= length orig_path)%nat ->
  length orig_path = (length orig_path_costs + 1)%nat ->
  improved init = false ->
  ShortcutPath cost_zero cost_add cost_sub orig_path orig_path_costs
    path_generators granularity leq window fuel shortcut_path = None.
Proof.
  intros Hlen Hcosts Hun. unfold ShortcutPath.
  apply Nat.eqb_eq in Hcosts as ->. cbn [negb].
  destruct (length orig_path <? 2)%nat eqn:Hlt; [apply Nat.ltb_lt in Hlt; lia|].
  rewrite while_loop_stuck; [done| |apply initial_state_committed|done].
  cbn. lia.
Qed.

Lemma while_loop_zero_granularity fuel (st : state PointType CostType) :
  granularity = 0%nat -> (3 <= length orig_path)%nat -> curr_end st = 1%nat ->
  while fuel st = None.
Proof.
  intros Hg Hlen. revert st. induction fuel as [|fuel IH]; intros st Hce;
    cbn [while_loop]; rewrite Hce;
    destruct (1 =? length orig_path)%nat eqn:Hb;
    try (apply Nat.eqb_eq in Hb; lia); [done|].
  apply IH. unfold loop_body.
  destruct (try_generators _ _ _ _ _ _ _ _ _ _ _ _ _) as [[[] bpath] bcost];
    [|done].
  rewrite Hce, Hg.
  destruct (_ =? 1)%nat eqn:H1; [apply Nat.eqb_eq in H1; lia|].
  cbn. lia.
Qed.

(** X16: with a granularity of zero the window never grows: on a path of at
    least three points with matching costs [ShortcutPath] never returns,
    whatever the generators and the number of iterations it is given. *)
Theorem ShortcutPath_zero_granularity_never_returns window fuel
    (shortcut_path : list PointType) :
  granularity = 0%nat ->
  (3 <= length orig_path)%nat ->
  length orig_path = (length orig_path_costs + 1)%nat ->
  ShortcutPath cost_zero cost_add cost_sub orig_path orig_path_costs
    path_generators granularity leq window fuel shortcut_path = None.
Proof.
  intros Hg Hlen Hcosts. unfold ShortcutPath.
  apply Nat.eqb_eq in Hcosts as ->. cbn [negb].
  destruct (length orig_path <? 2)%nat eqn:Hlt; [apply Nat.ltb_lt in Hlt; lia|].
  by rewrite while_loop_zero_granularity.
Qed.

(** X17: the cost count is the only way to fail: [ShortcutPath] returns
    false exactly when the number of points is not the number of costs plus
    one, and then the output parameter is as it was passed in; a generator
    that finds no path never makes the call fail. *)
Theorem ShortcutPath_false_iff window fuel (shortcut_path r : list PointType) :
  ShortcutPath cost_zero cost_add cost_sub orig_path orig_path_costs
    path_generators granularity leq window fuel shortcut_path = Some (false, r)
  <-> length orig_path <> (length orig_path_costs + 1)%nat /\ r = shortcut_path.
Proof.
  unfold ShortcutPath.
  destruct (length orig_path =? length orig_path_costs + 1)%nat eqn:Heq;
    cbn [negb].
  - apply Nat.eqb_eq in Heq. split; [|intros [? _]; lia].
    destruct (_ <? 2)%nat; [done|]. by destruct (while_loop _ _ _ _ _ _ _ _ _ _).
  - apply Nat.eqb_neq in Heq. split; [by intros [= <-]|by intros [_ ->]].
Qed.

(** *** What a returning call returns *)

Lemma while_loop_invariant (P : state PointType CostType -> Prop) fuel
    (st st' : state PointType CostType) :
  (forall st, P st -> curr_end st <> length orig_path -> P (body st)) ->
  P st -> while fuel st = Some st' ->
  P st' /\ curr_end st' = length orig_path.
Proof.
  intros Hstep. revert st. induction fuel as [|fuel IH]; intros st HP;
    cbn [while_loop];
    destruct (curr_end st =? length orig_path)%nat eqn:Hb.
  - intros [= <-]. split; [done|]. by apply Nat.eqb_eq.
  - done.
  - intros [= <-]. split; [done|]. by apply Nat.eqb_eq.
  - apply IH, Hstep; [done|]. by apply Nat.eqb_neq.
Qed.

Lemma loop_body_improved (st : state PointType CostType) bpath bcost :
  proposed st = (true, bpath, bcost) ->
  body st
  = let dist_to_end := (length orig_path - curr_end st)%nat in
    if (dist_to_end =? 1)%nat then
      State (curr_start st) (length orig_path - 1)%nat (length orig_path)
        (start_index st) (length orig_path) bpath bcost (result_traj st)
    else if (dist_to_end <? granularity)%nat then
      State (curr_start st) (last_end st + (dist_to_end - 1))%nat
        (curr_end st + (dist_to_end - 1))%nat (start_index st)
        (end_index st + (dist_to_end - 1))%nat bpath bcost (result_traj st)
    else
      State (curr_start st) (last_end st + granularity)%nat
        (curr_end st + granularity)%nat (start_index st)
        (end_index st + granularity)%nat bpath bcost (result_traj st).
Proof. unfold proposals, loop_body. by intros ->. Qed.

Lemma loop_body_improved_fields (st : state PointType CostType) bpath bcost :
  proposed st = (true, bpath, bcost) ->
  curr_start (body st) = curr_start st
  /\ best_path (body st) = bpath
  /\ result_traj (body st) = result_traj st.
Proof.
  intros ->%loop_body_improved. cbv zeta.
  destruct (_ =? 1)%nat; [done|]. by destruct (_ <? granularity)%nat.
Qed.

Lemma proposed_connects (st : state PointType CostType) bpath bcost :
  Forall connects path_generators ->
  proposed st = (true, bpath, bcost) ->
  exists mid,
    bpath = orig_path !!! curr_start st :: mid ++ [orig_path !!! curr_end st].
Proof.
  intros Hgens [(? & _)|(it & Hin & Hgen)]%try_generators_improved; [done|].
  rewrite Forall_forall in Hgens. by eapply Hgens.
Qed.

Lemma connected_starts_at (a b : PointType) mid : starts_at a (a :: mid ++ [b]).
Proof. destruct mid as [|y mid]; [by exists b, []|by exists y, (mid ++ [b])]. Qed.

Lemma commit_starts_at (x z : PointType) traj bpath :
  (traj = [] /\ z = x \/ starts_at x traj) -> starts_at z bpath ->
  starts_at x (commit traj bpath).
Proof.
  intros [[-> ->]|(y & rest & ->)] (y' & rest' & ->); [by exists y', rest'|].
  unfold commit. change (x :: y :: rest) with ([x] ++ y :: rest).
  rewrite removelast_app by done. cbn [app].
  destruct (removelast (y :: rest)) as [|w l]; cbn [app]; by eexists _, _.
Qed.

(** The best path starts at [curr_start]; the committed points, if any,
    start at the first point of the path, and nothing is committed before
    [curr_start] has moved. *)
Local Abbreviation rooted st :=
  (starts_at (orig_path !!! curr_start st) (best_path st)
   /\ (result_traj st = [] /\ curr_start st = 0%nat
       \/ starts_at (orig_path !!! 0%nat) (result_traj st))).

Lemma rooted_commit (st : state PointType CostType) :
  rooted st ->
  starts_at (orig_path !!! 0%nat) (commit (result_traj st) (best_path st)).
Proof.
  intros [Hbest Htraj]. eapply commit_starts_at; [|done].
  destruct Htraj as [[-> ->]|?]; [by left|by right].
Qed.

Lemma loop_body_rooted (st : state PointType CostType) :
  Forall connects path_generators -> rooted st -> rooted (body st).
Proof.
  intros Hgens Hroot.
  destruct (proposed st) as [[[] bpath] bcost] eqn:Hprop.
  - destruct (loop_body_improved_fields st _ _ Hprop) as (-> & -> & ->).
    split; [|by destruct Hroot].
    destruct (proposed_connects st _ _ Hgens Hprop) as [mid ->].
    apply connected_starts_at.
  - rewrite loop_body_unimproved by (unfold cost_improved; by rewrite Hprop).
    cbn. split; [by eexists _, _|]. right. by apply rooted_commit.
Qed.

Lemma initial_state_rooted : rooted init.
Proof. split; [by eexists _, _|by left]. Qed.

(** X18: when every proposal of every generator leads from the first to the
    second point it was asked for, a call that returns on a path of at least
    two points with matching costs returns true with a path of at least two
    points that starts at the first point of the original path. *)
Theorem ShortcutPath_starts_at_first_point window fuel
    (shortcut_path : list PointType) result :
  Forall connects path_generators ->
  (2 <= length orig_path)%nat ->
  length orig_path = (length orig_path_costs + 1)%nat ->
  ShortcutPath cost_zero cost_add cost_sub orig_path orig_path_costs
    path_generators granularity leq window fuel shortcut_path = Some result ->
  result.1 = true /\ starts_at (orig_path !!! 0%nat) result.2.
Proof.
  intros Hgens Hlen Hcosts. unfold ShortcutPath.
  apply Nat.eqb_eq in Hcosts as ->. cbn [negb].
  destruct (length orig_path <? 2)%nat eqn:Hlt; [apply Nat.ltb_lt in Hlt; lia|].
  destruct (while_loop _ _ _ _ _ _ _ _ _ _) as [st|] eqn:Hwhile; [|done].
  intros [= <-]. split; [done|]. cbn [snd].
  apply rooted_commit.
  by apply (while_loop_invariant (fun st => rooted st) _ _ _
              (fun st H _ => loop_body_rooted st Hgens H)
              initial_state_rooted Hwhile).
Qed.

Lemma commit_ends_at (x : PointType) traj bpath :
  ends_at x bpath -> ends_at x (commit traj bpath).
Proof.
  intros [front ->]. destruct traj as [|y traj]; [by exists front|].
  exists (removelast (y :: traj) ++ front). unfold commit.
  by rewrite app_assoc.
Qed.

(** In step, and once the window has reached the end of the path the best
    path ends at the last point. *)
Local Abbreviation closing st :=
  (in_step st
   /\ (curr_end st = length orig_path ->
       ends_at (orig_path !!! (length orig_path - 1)%nat) (best_path st))).

Lemma loop_body_closing (st : state PointType CostType) :
  granularity = 1%nat -> Forall connects path_generators ->
  closing st -> curr_end st <> length orig_path -> closing (body st).
Proof.
  intros Hg Hgens [Hstep _] Hrun. split; [by apply loop_body_in_step|].
  destruct Hstep as (Hce & _).
  destruct (proposed st) as [[[] bpath] bcost] eqn:Hprop.
  - rewrite (loop_body_improved st _ _ Hprop). cbv zeta.
    destruct (proposed_connects st _ _ Hgens Hprop) as [mid ->].
    destruct (_ =? 1)%nat eqn:H1.
    + apply Nat.eqb_eq in H1. intros _. cbn.
      replace (length orig_path - 1)%nat with (curr_end st) by lia.
      by exists (orig_path !!! curr_start st :: mid).
    + apply Nat.eqb_neq in H1. rewrite Hg.
      destruct (_ <? 1)%nat eqn:Hlt; cbn; intros ?; lia.
  - rewrite loop_body_unimproved by (unfold cost_improved; by rewrite Hprop).
    cbn. intros ?. lia.
Qed.

(** X19: with a granularity of one, when every proposal of every generator
    leads from the first to the second point it was asked for, a call that
    returns on a path of at least two points with matching costs returns a
    path that ends at the last point of the original path. *)
Theorem ShortcutPath_ends_at_last_point window fuel
    (shortcut_path : list PointType) result :
  granularity = 1%nat ->
  Forall connects path_generators ->
  (2 <= length orig_path)%nat ->
  length orig_path = (length orig_path_costs + 1)%nat ->
  ShortcutPath cost_zero cost_add cost_sub orig_path orig_path_costs
    path_generators granularity leq window fuel shortcut_path = Some result ->
  result.1 = true
  /\ ends_at (orig_path !!! (length orig_path - 1)%nat) result.2.
Proof.
  intros Hg Hgens Hlen Hcosts. unfold ShortcutPath.
  apply Nat.eqb_eq in Hcosts as ->. cbn [negb].
  destruct (length orig_path <? 2)%nat eqn:Hlt; [apply Nat.ltb_lt in Hlt; lia|].
  destruct (while_loop _ _ _ _ _ _ _ _ _ _) as [st|] eqn:Hwhile; [|done].
  intros [= <-]. split; [done|]. cbn [snd]. apply commit_ends_at.
  destruct (while_loop_invariant (fun st => closing st) _ _ _
              (fun st H Hrun => loop_body_closing st Hg Hgens H Hrun)
              (conj (initial_state_in_step Hlen)
                 (fun H : curr_end init = length orig_path =>
                    ltac:(cbn in H; lia)))
              Hwhile) as [[_ Hend] Hexit].
  by apply Hend.
Qed.

(** X20: when the granularity is the number of points minus one (and at
    least two) and some proposal for the first segment is accepted, the
    window jumps from the second point straight to the end of the path and
    the call returns, after one iteration, the last accepted proposal for
    the first segment alone: a path from the first point to the second. *)
Theorem ShortcutPath_window_jumps_to_end window fuel
    (shortcut_path : list PointType) bpath bcost :
  (2 <= granularity)%nat ->
  length orig_path = (granularity + 1)%nat ->
  length orig_path = (length orig_path_costs + 1)%nat ->
  proposed init = (true, bpath, bcost) ->
  ShortcutPath cost_zero cost_add cost_sub orig_path orig_path_costs
    path_generators granularity leq window (S fuel) shortcut_path
  = Some (true, bpath)
  /\ exists it,
       it ∈ path_generators
       /\ generate_path it (orig_path !!! 0%nat) (orig_path !!! 1%nat)
          = Some (bpath, bcost).
Proof.
  intros Hg Hlen Hcosts Hprop. split.
  - unfold ShortcutPath.
    apply Nat.eqb_eq in Hcosts as ->. cbn [negb].
    destruct (length orig_path <? 2)%nat eqn:Hlt;
      [apply Nat.ltb_lt in Hlt; lia|].
    cbn [while_loop].
    destruct (curr_end init =? length orig_path)%nat eqn:Hb;
      [apply Nat.eqb_eq in Hb; cbn in Hb; lia|].
    rewrite (loop_body_improved init _ _ Hprop). cbv zeta.
    change (curr_end init) with 1%nat.
    destruct (_ =? 1)%nat eqn:H1; [apply Nat.eqb_eq in H1; lia|].
    destruct (_ <? granularity)%nat eqn:H2; [apply Nat.ltb_lt in H2; lia|].
    destruct fuel; cbn [while_loop curr_end];
      (destruct (1 + granularity =? length orig_path)%nat eqn:H3;
         [done|apply Nat.eqb_neq in H3; lia]).
  - by destruct (try_generators_improved _ _ _ _ _ _ _ _ _ Hprop)
      as [(? & _)|?].
Qed.

(** *** Iterations that all improve *)

Local Abbreviation after :=
  (state_after cost_zero cost_add cost_sub orig_path orig_path_costs
     path_generators granularity leq).

Lemma loop_body_improved_grows (st : state PointType CostType) bpath bcost :
  (1 <= granularity)%nat -> in_step st -> curr_end st <> length orig_path ->
  proposed st = (true, bpath, bcost) ->
  (curr_end st < curr_end (body st))%nat.
Proof.
  intros Hg (Hce & _) Hrun ->%loop_body_improved. cbv zeta.
  destruct (_ =? 1)%nat eqn:H1; [cbn; lia|]. apply Nat.eqb_neq in H1.
  destruct (_ <? granularity)%nat; cbn; lia.
Qed.

(** Nothing committed yet, and the best path is the start segment or a
    proposal made from the first point. *)
Local Abbreviation uncommitted k :=
  (result_traj (after k) = [] /\ curr_start (after k) = 0%nat
   /\ ((k : nat) = 0%nat
       \/ exists it b cost,
            it ∈ path_generators
            /\ generate_path it (orig_path !!! 0%nat) b
               = Some (best_path (after k), cost))).

Lemma while_loop_improving fuel k :
  (1 <= granularity)%nat ->
  (forall k, (k < length orig_path)%nat ->
     curr_end (after k) <> length orig_path -> improved (after k) = true) ->
  in_step (after k) -> uncommitted k ->
  (k + (length orig_path - curr_end (after k)) <= length orig_path - 1)%nat ->
  (length orig_path - curr_end (after k) <= fuel)%nat ->
  exists k',
    while fuel (after k) = Some (after k')
    /\ uncommitted k' /\ curr_end (after k') = length orig_path.
Proof.
  intros Hg Himp. revert k.
  induction fuel as [|fuel IH]; intros k Hstep Hun Hk Hfuel;
    cbn [while_loop];
    destruct (curr_end (after k) =? length orig_path)%nat eqn:Hb;
    try (apply Nat.eqb_eq in Hb; by exists k).
  - apply Nat.eqb_neq in Hb. destruct Hstep as (? & _). lia.
  - apply Nat.eqb_neq in Hb.
    assert (k < length orig_path)%nat as Hklt
      by (destruct Hstep as (? & _); lia).
    specialize (Himp k Hklt Hb) as Hi. unfold cost_improved in Hi.
    destruct (proposed (after k)) as [[flag bpath] bcost] eqn:Hprop.
    cbn [fst] in Hi. subst flag.
    pose proof (loop_body_improved_grows _ _ _ Hg Hstep Hb Hprop) as Hgrow.
    pose proof (loop_body_in_step _ Hstep Hb) as Hstep'.
    destruct (loop_body_improved_fields _ _ _ Hprop) as (Hcs & Hbp & Htraj).
    destruct Hun as (Ht & Hs & _).
    change (body (after k)) with (after (S k)) in *.
    assert (curr_end (after k) <= length orig_path)%nat
      by (by destruct Hstep as ([_ ?] & _)).
    apply (IH (S k)); [done| |lia|lia].
    split; [congruence|]. split; [congruence|]. right.
    destruct (try_generators_improved _ _ _ _ _ _ _ _ _ Hprop)
      as [(? & _)|(it & Hin & Hgen)]; [done|].
    exists it, (orig_path !!! curr_end (after k)), bcost.
    split; [done|]. by rewrite Hbp, <- Hs.
Qed.

(** X21: the call returns when every window finds an acceptable proposal:
    with a granularity of at least one, on a path of at least two points
    with matching costs, if each iteration made before the window reaches
    the end of the path improves, then a number of iterations one less than
    the number of points is enough for the call to return true; nothing is
    committed on the way, so the output is one single proposal of a
    generator, made from the first point of the path. *)
Theorem ShortcutPath_returns_when_every_window_improves window fuel
    (shortcut_path : list PointType) :
  (1 <= granularity)%nat ->
  (2 <= length orig_path)%nat ->
  length orig_path = (length orig_path_costs + 1)%nat ->
  (length orig_path - 1 <= fuel)%nat ->
  (forall k, (k < length orig_path)%nat ->
     curr_end (after k) <> length orig_path -> improved (after k) = true) ->
  exists out it b cost,
    ShortcutPath cost_zero cost_add cost_sub orig_path orig_path_costs
      path_generators granularity leq window fuel shortcut_path
    = Some (true, out)
    /\ it ∈ path_generators
    /\ generate_path it (orig_path !!! 0%nat) b = Some (out, cost).
Proof.
  intros Hg Hlen Hcosts Hfuel Himp.
  destruct (while_loop_improving fuel 0 Hg Himp (initial_state_in_step Hlen))
    as (k' & Hwhile & (Htraj & _ & Hbest) & Hend);
    [by repeat split; try left|cbn; lia|cbn; lia|].
  destruct Hbest as [->|(it & b & cost & Hin & Hgen)]; [cbn in Hend; lia|].
  exists (best_path (after k')), it, b, cost. split; [|done].
  unfold ShortcutPath.
  apply Nat.eqb_eq in Hcosts as ->. cbn [negb].
  destruct (length orig_path <? 2)%nat eqn:Hlt; [apply Nat.ltb_lt in Hlt; lia|].
  change init with (after 0). by rewrite Hwhile, Htraj.
Qed.

End WithTypes.

(** *** The theorems at concrete calls *)

Section OnFixtures.

Import ShortcutFixtures ShortcutGenerators.

Lemma direct_connects : connects direct.
Proof. intros a b path cost [= <- <-]. by exists []. Qed.

(** Four points, unit costs, the direct generator. *)
Lemma window_indices_in_step_witness :
  indices_in_step [10; 11; 12; 13]%nat
    (initial_state 0 Z.add Z.sub [10; 11; 12; 13]%nat [1; 1; 1])
  /\ forall st : state nat Z,
       indices_in_step [10; 11; 12; 13]%nat st ->
       curr_end st <> 4%nat ->
       indices_in_step [10; 11; 12; 13]%nat
         (loop_body 0 Z.add Z.sub [10; 11; 12; 13]%nat [1; 1; 1] [direct] 1
            Z.leb st)
       /\ (curr_start st < curr_end st < 4)%nat
       /\ (start_index st < end_index st
           < length (accum_point_costs 0%Z Z.add [10; 11; 12; 13]%nat
                       [1; 1; 1]%Z))%nat.
Proof.
  apply (window_indices_in_step 0 Z.add Z.sub [10; 11; 12; 13]%nat [1; 1; 1]
           [direct] 1 Z.leb).
  cbn [length]. lia.
Defined.

(** A generator that never finds a path: the first two iterations commit. *)
Lemma while_loop_two_commits_never_ends_witness :
  while_loop 0 Z.add Z.sub [10; 11; 12]%nat [1; 1] [never] 1 Z.leb 1000
    (initial_state 0 Z.add Z.sub [10; 11; 12]%nat [1; 1])
  = None.
Proof.
  apply while_loop_two_commits_never_ends; [cbn; lia|done|done].
Defined.

(** The only proposal for the first segment costs 100 against a reference
    of 1 + 1. *)
Lemma ShortcutPath_first_segment_unimproved_witness :
  ShortcutFixtures.ShortcutPath [10; 11; 12]%nat [1; 1] [costly] [] 0 1 1000
  = None.
Proof.
  unfold ShortcutFixtures.ShortcutPath.
  apply ShortcutPath_first_segment_unimproved; [cbn; lia|done|done].
Defined.

(** The direct generator improves every window, but the window cannot
    grow. *)
Lemma ShortcutPath_zero_granularity_witness :
  ShortcutFixtures.ShortcutPath [10; 11; 12]%nat [1; 1] [direct] [] 0 0 1000
  = None.
Proof.
  unfold ShortcutFixtures.ShortcutPath.
  apply ShortcutPath_zero_granularity_never_returns; [done|cbn; lia|done].
Defined.

(** Four points shortcut to the direct segment from the first to the last. *)
Lemma ShortcutPath_starts_at_first_point_witness :
  ShortcutFixtures.ShortcutPath [10; 11; 12; 13]%nat [1; 1; 1] [direct] [] 0 1 3
  = Some (true, [10; 13]%nat)
  /\ (true, [10; 13]%nat).1 = true
  /\ starts_at ([10; 11; 12; 13]%nat !!! 0%nat) (true, [10; 13]%nat).2.
Proof.
  split; [by vm_compute|].
  apply (ShortcutPath_starts_at_first_point 0 Z.add Z.sub [10; 11; 12; 13]%nat
           [1; 1; 1] [direct] 1 Z.leb 0 3 []);
    [|cbn; lia|done|by vm_compute].
  apply Forall_singleton, direct_connects.
Defined.

Lemma ShortcutPath_ends_at_last_point_witness :
  ShortcutFixtures.ShortcutPath [10; 11; 12; 13]%nat [1; 1; 1] [direct] [] 0 1 3
  = Some (true, [10; 13]%nat)
  /\ (true, [10; 13]%nat).1 = true
  /\ ends_at ([10; 11; 12; 13]%nat !!! 3%nat) (true, [10; 13]%nat).2.
Proof.
  split; [by vm_compute|].
  apply (ShortcutPath_ends_at_last_point 0 Z.add Z.sub [10; 11; 12; 13]%nat
           [1; 1; 1] [direct] 1 Z.leb 0 3 []);
    [done| |cbn; lia|done|by vm_compute].
  apply Forall_singleton, direct_connects.
Defined.

(** Four points and a granularity of three: the output stops at the second
    point. *)
Lemma ShortcutPath_window_jumps_to_end_witness :
  ShortcutFixtures.ShortcutPath [10; 11; 12; 13]%nat [1; 1; 1] [direct] [] 0 3 1
  = Some (true, [10; 11]%nat)
  /\ exists it,
       it ∈ [direct] /\ Shortcut.generate_path it 10%nat 11%nat
                       = Some ([10; 11]%nat, 0).
Proof.
  unfold ShortcutFixtures.ShortcutPath.
  apply (ShortcutPath_window_jumps_to_end 0 Z.add Z.sub [10; 11; 12; 13]%nat
           [1; 1; 1] [direct] 3 Z.leb 0 0 [] [10; 11]%nat 0);
    [lia|done|done|by vm_compute].
Defined.

(** Unit costs and the direct generator: every window improves. *)
Lemma ShortcutPath_returns_when_every_window_improves_witness :
  exists out it b cost,
    ShortcutFixtures.ShortcutPath [10; 11; 12; 13]%nat [1; 1; 1] [direct] [] 0
      1 3
    = Some (true, out)
    /\ it ∈ [direct]
    /\ Shortcut.generate_path it 10%nat b = Some (out, cost).
Proof.
  unfold ShortcutFixtures.ShortcutPath.
  apply (ShortcutPath_returns_when_every_window_improves 0 Z.add Z.sub
           [10; 11; 12; 13]%nat [1; 1; 1] [direct] 1 Z.leb 0 3 []);
    [lia|cbn; lia|done|cbn; lia|].
  intros k Hk Hrun.
  do 4 (destruct k as [|k];
        [first [by vm_compute|exfalso; apply Hrun; by vm_compute]|]).
  cbn in Hk. lia.
Defined.

End OnFixtures.

End ShortcutMore.
